(** * AsyncEventPipeline: a shallow embedding of the execution engine

    The development follows the class [AsyncEventPipeline]: the registry
    ([add], [use]) and the engine ([execute], [exec]) with its inner
    closures [runner] and [next].

    JavaScript promises are kept in an explicit store.  A promise is
    pending, fulfilled, rejected, or locked in to another promise whose
    eventual state it adopts; [resolve] and [reject] act only on a promise
    that has not been resolved yet.  Microtask timing is abstracted: the
    eventual state of a promise is read by following the adoption links.
    A rejected promise that nobody follows is just an entry of the store.

    Tasks are code of the caller.  What a task does while it is being
    invoked is a [script]: the calls of its continuation it makes, in
    order, and how the invocation completes (it returns something, or it
    throws).  What a task does later (from a timer, after an await) is an
    [event] of the run: a call of the continuation of some earlier
    activation.  A continuation returns [undefined] and never throws, so a
    script does not depend on what its calls did.

    Assumptions: the registry is not modified while an execution is in
    progress; payloads are not thenables (an async function that returns
    a thenable adopts it); while it is being invoked a task calls no
    continuation but its own. *)

From stdpp Require Import base list numbers strings relations.

Local Open Scope string_scope.
Local Open Scope Z_scope.

(** ** Values *)

(** Payloads and errors.  Numbers are kept as integers plus NaN; an
    [Error] object carries its constructor name and its message; every
    other object is known by its address only. *)
Inductive value : Type :=
  | VUndefined
  | VNull
  | VBool (b : bool)
  | VNumber (n : Z)
  | VNaN
  | VString (s : string)
  | VSymbol (description : string)
  | VBigInt (n : Z)
  | VError (name message : string)
  | VObject (addr : nat).

(** [if (v)] *)
Definition truthy (v : value) : bool :=
  match v with
  | VUndefined | VNull | VNaN => false
  | VBool b => b
  | VNumber n => negb (n =? 0)
  | VBigInt n => negb (n =? 0)
  | VString s => negb (String.eqb s "")
  | VSymbol _ | VError _ _ | VObject _ => true
  end.

(** [v !== undefined] *)
Definition not_undefined (v : value) : bool :=
  match v with
  | VUndefined => false
  | _ => true
  end.

(** [typeof v] for values that are not callable. *)
Definition typeof_value (v : value) : string :=
  match v with
  | VUndefined => "undefined"
  | VNull => "object"
  | VBool _ => "boolean"
  | VNumber _ | VNaN => "number"
  | VString _ => "string"
  | VSymbol _ => "symbol"
  | VBigInt _ => "bigint"
  | VError _ _ | VObject _ => "object"
  end.

(** ** Tasks *)

(** One call [next(err, nextData)]; an omitted argument is [undefined]. *)
Record call : Type := Call { c_err : value; c_nextData : value }.

(** What a task invocation hands back to the engine: a plain value, or a
    promise (an [async] task always returns one). *)
Inductive returned : Type :=
  | RetValue (v : value)
  | RetPromisePending
  | RetPromiseFulfilled (v : value)
  | RetPromiseRejected (e : value).

Inductive completion : Type :=
  | Normal (r : returned)
  | Abrupt (e : value).

(** The synchronous part of one invocation. *)
Record script : Type := Script { s_calls : list call; s_completion : completion }.

(** Source text as UTF-16 code units, the way a regular expression
    without the [u] flag reads it. *)
Definition text : Type := list N.

Fixpoint ascii_text (s : string) : text :=
  match s with
  | EmptyString => []
  | String c s' => Ascii.N_of_ascii c :: ascii_text s'
  end.

(** A function object: the text [Function.prototype.toString] gives for
    it and what it does when called and when constructed.  The behaviour
    may depend on the activation it runs in (a closure with state of its
    own) and on the payload. *)
Record function_ : Type := Function_ {
  fn_source : text;
  fn_call : nat -> value -> script;
  fn_construct : nat -> value -> script
}.

(** Anything that can be passed to [add]. *)
Inductive task : Type :=
  | TValue (v : value)
  | TFunction (f : function_)
  | TObject (handle : option function_).

Definition typeof (t : task) : string :=
  match t with
  | TValue v => typeof_value v
  | TFunction _ => "function"
  | TObject _ => "object"
  end.

(** [t !== null] *)
Definition not_null (t : task) : bool :=
  match t with
  | TValue VNull => false
  | _ => true
  end.

(** [typeof task.handle === 'function'], with the function found there. *)
Definition handle_of (t : task) : option function_ :=
  match t with
  | TObject h => h
  | _ => None
  end.

(** ** The class test [/^class\s/] *)

(** The class [\s]: white space and line terminators. *)
Definition regex_space (c : N) : bool :=
  ((c =? 9) || (c =? 10) || (c =? 11) || (c =? 12) || (c =? 13) || (c =? 32)
   || (c =? 160) || (c =? 5760) || ((8192 <=? c) && (c <=? 8202))
   || (c =? 8232) || (c =? 8233) || (c =? 8239) || (c =? 8287)
   || (c =? 12288) || (c =? 65279))%N.

Fixpoint starts_with (prefix s : text) : option text :=
  match prefix, s with
  | [], _ => Some s
  | p :: prefix', c :: s' => if (p =? c)%N then starts_with prefix' s' else None
  | _ :: _, [] => None
  end.

Definition class_regex_test (s : text) : bool :=
  match starts_with (ascii_text "class") s with
  | Some (c :: _) => regex_space c
  | _ => false
  end.

(** ** The registry *)

Record pipeline : Type := Pipeline { tasks : list task }.

Definition new_pipeline : pipeline := {| tasks := [] |}.

(** A method either throws or returns. *)
Inductive result (A : Type) : Type :=
  | Throws (e : value)
  | Returns (a : A).
Arguments Throws {A} e.
Arguments Returns {A} a.

Definition registration_error : value :=
  VError "TypeError" "Task must be a function or class or object.".

Definition add (t : task) (this : pipeline) : result pipeline :=
  if negb (String.eqb (typeof t) "function"
           || (String.eqb (typeof t) "object" && not_null t))
  then Throws registration_error
  else Returns {| tasks := tasks this ++ [t] |}.

(** What the check of [add] lets through. *)
Definition accepted (t : task) : Prop :=
  typeof t = "function" ∨ (typeof t = "object" ∧ t ≠ TValue VNull).

Definition use (t : task) (this : pipeline) : result pipeline :=
  add t this.

(** ** The promise store and the state of one execution *)

Inductive promise : Type :=
  | Pending
  | Fulfilled (v : value)
  | Rejected (e : value)
  | Follows (p : nat).

(** The closure of one [next]: the [index] and [data] of the [runner]
    call that created it and the promise whose [resolve] and [reject] it
    holds. *)
Record activation : Type := Activation {
  a_index : nat;
  a_data : value;
  a_promise : nat
}.

(** What an observer of the run sees: a task being invoked with a
    payload, a continuation being called. *)
Inductive entry : Type :=
  | Invoked (index : nat) (data : value)
  | Continued (act : nat) (err nextData : value).

Record state : Type := State {
  currentIndex : Z;
  heap : list promise;
  acts : list activation;
  log : list entry
}.

Definition set_currentIndex (i : Z) (st : state) : state :=
  {| currentIndex := i; heap := heap st; acts := acts st; log := log st |}.

Definition set_heap (h : list promise) (st : state) : state :=
  {| currentIndex := currentIndex st; heap := h; acts := acts st; log := log st |}.

Definition record (e : entry) (st : state) : state :=
  {| currentIndex := currentIndex st; heap := heap st; acts := acts st;
     log := log st ++ [e] |}.

Definition activate (a : activation) (st : state) : state :=
  {| currentIndex := currentIndex st; heap := heap st; acts := acts st ++ [a];
     log := log st |}.

(** [new Promise(...)], and the promise of a call of an async function. *)
Definition alloc (st : state) : nat * state :=
  (length (heap st), set_heap (heap st ++ [Pending]) st).

(** The resolving functions of promise [p]: the first call decides. *)
Definition settle (p : nat) (x : promise) (st : state) : state :=
  match heap st !! p with
  | Some Pending => set_heap (<[p := x]> (heap st)) st
  | _ => st
  end.

Definition resolve (p q : nat) : state -> state := settle p (Follows q).
Definition reject (p : nat) (e : value) : state -> state := settle p (Rejected e).
Definition fulfil (p : nat) (v : value) : state -> state := settle p (Fulfilled v).

(** ** The engine *)

Definition protocol_error : value :=
  VError "Error" "next() called multiple times in the same task.".

Definition handle_error : value :=
  VError "TypeError" "Object tasks must implement a handle(data, next) method.".

(** What reading [handle] of [null] throws. *)
Definition null_error : value :=
  VError "TypeError" "Cannot read properties of null (reading 'handle')".

(** The body of the [try] block: which code runs for the task, as the
    script of activation [a] on payload [data]. *)
Definition try_block (t : task) (a : nat) (data : value) : script :=
  if String.eqb (typeof t) "function" then
    match t with
    | TFunction f =>
        if class_regex_test (fn_source f)
        then fn_construct f a data
        else fn_call f a data
    | _ => Script [] (Normal (RetValue VUndefined))
    end
  else if String.eqb (typeof t) "object" then
    if not_null t then
      match handle_of t with
      | Some h => fn_call h a data
      | None => Script [] (Abrupt handle_error)
      end
    else Script [] (Abrupt null_error)
  else Script [] (Normal (RetValue VUndefined)).

(** The closure [next] of an activation, over the [runner] call it makes. *)
Definition next_with (run : value -> state -> nat * state)
    (a : nat) (act : activation) (c : call) (st : state) : state :=
  let st := record (Continued a (c_err c) (c_nextData c)) st in
  if truthy (c_err c) then reject (a_promise act) (c_err c) st
  else
    let dataForNextTask :=
      if not_undefined (c_nextData c) then c_nextData c else a_data act in
    let '(r, st) := run dataForNextTask st in
    resolve (a_promise act) r st.

(** The executor of the promise: the task runs, and what it throws is
    caught. *)
Definition run_script (next : call -> state -> state) (p : nat)
    (s : script) (st : state) : state :=
  let st := foldl (fun st c => next c st) st (s_calls s) in
  match s_completion s with
  | Abrupt e => reject p e st
  | Normal _ => st
  end.

(** [runner(index, data)].  [rest] holds the tasks from [index] on, so
    that [index >= this.#tasks.length] reads [rest = []] and
    [this.#tasks[index]] is the head of [rest].  The call is one of an
    async function: its promise [r] exists from the start and is rejected
    by the [throw], fulfilled by [return data], or resolved with the
    promise [p] that the body returns. *)
Fixpoint runner (rest : list task) (index : nat) (data : value)
    (st : state) : nat * state :=
  let '(r, st) := alloc st in
  if Z.of_nat index =? currentIndex st then (r, reject r protocol_error st)
  else
    let st := set_currentIndex (Z.of_nat index) st in
    match rest with
    | [] => (r, fulfil r data st)
    | t :: rest' =>
        let '(p, st) := alloc st in
        let a := length (acts st) in
        let act := {| a_index := index; a_data := data; a_promise := p |} in
        let st := record (Invoked index data) (activate act st) in
        let st :=
          run_script (next_with (runner rest' (S index)) a act) p
            (try_block t a data) st in
        (r, resolve r p st)
    end.

(** [let currentIndex = -1], and nothing else yet. *)
Definition initial : state :=
  {| currentIndex := -1; heap := []; acts := []; log := [] |}.

(** [execute(initialData)]: the promise of the call and the state the
    synchronous part of the execution leaves. *)
Definition execute (this : pipeline) (initialData : value) : nat * state :=
  let '(e, st) := alloc initial in
  let '(r, st) := runner (tasks this) 0 initialData st in
  (e, resolve e r st).

Definition exec (this : pipeline) (initialData : value) : nat * state :=
  execute this initialData.

(** ** Later continuation calls *)

(** Activation [a] calls its [next] with [c]. *)
Definition event : Type := (nat * call)%type.

Definition next (ts : list task) (a : nat) (act : activation) : call -> state -> state :=
  next_with (runner (drop (S (a_index act)) ts) (S (a_index act))) a act.

Definition fire (ts : list task) (ev : event) (st : state) : state :=
  match acts st !! ev.1 with
  | Some act => next ts ev.1 act ev.2 st
  | None => st
  end.

Definition run (ts : list task) (evs : list event) (st : state) : state :=
  foldl (fun st ev => fire ts ev st) st evs.

(** ** The eventual state of a promise *)

Fixpoint chase (fuel : nat) (h : list promise) (p : nat) : nat :=
  match fuel, h !! p with
  | S fuel', Some (Follows q) => chase fuel' h q
  | _, _ => p
  end.

(** The promise that decides [p]: the end of the chain of adoptions that
    starts at [p].  A link always leads to a promise created later, so
    the size of the store is fuel enough. *)
Definition terminus (st : state) (p : nat) : nat :=
  chase (length (heap st)) (heap st) p.

(** The eventual state of [p]: [Fulfilled] or [Rejected] once the chain
    ends in a settled promise, [Pending] while it ends in a pending one. *)
Definition outcome (st : state) (p : nat) : promise :=
  default Pending (heap st !! terminus st p).

Local Close Scope Z_scope.
Local Open Scope nat_scope.

(** A promise that has reached its final state. *)
Definition settled (x : promise) : Prop :=
  match x with
  | Fulfilled _ | Rejected _ => True
  | Pending | Follows _ => False
  end.


(** The state in which [runner(index, data)] invokes its task: two new
    promises (the call's and the executor's), the cursor moved, the
    activation created. *)
Definition entered (index : nat) (data : value) (st : state) : state :=
  record (Invoked index data)
    (activate {| a_index := index; a_data := data;
                 a_promise := S (length (heap st)) |}
       (set_currentIndex (Z.of_nat index)
          (set_heap (heap st ++ [Pending; Pending]) st))).

(** ** Reading the log *)

Definition continued_ids (l : list entry) : list nat :=
  omap (λ e, match e with Continued a _ _ => Some a | Invoked _ _ => None end) l.

Definition invoked_indices (l : list entry) : list nat :=
  omap (λ e, match e with Invoked i _ => Some i | Continued _ _ _ => None end) l.

(** ** Sample tasks *)

Definition not_a_constructor : value :=
  VError "TypeError" "task is not a constructor".

Definition class_call_error : value :=
  VError "TypeError" "Class constructor cannot be invoked without 'new'".

(** [(data, next) => { ... }] *)
Definition arrow (body : nat → value → script) : task :=
  TFunction {| fn_source := ascii_text "(data, next) => { }";
               fn_call := body;
               fn_construct := λ _ _, Script [] (Abrupt not_a_constructor) |}.


Definition done_ : completion := Normal (RetValue VUndefined).

(** [next()] *)
Definition continue_ : call := Call VUndefined VUndefined.

Definition continues_once : task := arrow (λ _ _, Script [continue_] done_).
Definition continues_twice : task := arrow (λ _ _, Script [continue_; continue_] done_).
Definition continues_later : task := arrow (λ _ _, Script [] done_).

Definition bad : value := VError "Error" "bad".


(** [(data, next) => { throw e; }] and [(data, next) => { next(e); }] *)
Definition throws (e : value) : task := arrow (λ _ _, Script [] (Abrupt e)).
Definition signals (e : value) : task := arrow (λ _ _, Script [Call e VUndefined] done_).

(** [async (data, next) => { throw e; }]: the call returns a rejected
    promise. *)
Definition async_throws (e : value) : task :=
  arrow (λ _ _, Script [] (Normal (RetPromiseRejected e))).

(** Adoption links lead to promises created later, and the promise of
    an activation exists. *)
Record well_linked (st : state) : Prop := WellLinked {
  wl_links : ∀ p q, heap st !! p = Some (Follows q) → p < q < length (heap st);
  wl_acts : ∀ a act, acts st !! a = Some act → a_promise act < length (heap st)
}.

(** ** What a promise is waiting on *)

(** [p] has adopted [q]. *)
Definition link (h : list promise) (p q : nat) : Prop :=
  h !! p = Some (Follows q).

(** The state of [p] is the state of [q], through any number of
    adoptions. *)
Definition awaits (h : list promise) : nat → nat → Prop := rtc (link h).




(** ** Tasks that continue at once *)

(** The task continues once, while it is being invoked, without error,
    passing [f data] as [nextData]. *)
Definition continues_with (f : value → value) (t : task) : Prop :=
  ∀ a d, ∃ e r, truthy e = false
                ∧ try_block t a d = Script [Call e (f d)] (Normal r).

(** [(data, next) => next(null, f(data))] *)
Definition transforms (f : value → value) : task :=
  arrow (λ _ d, Script [Call VNull (f d)] done_).

(** The payload after a task that passes [f data]. *)
Definition forward (d : value) (f : value → value) : value :=
  if not_undefined (f d) then f d else d.

(** ** Evolution of the store *)

(** [evolves_from n st st']: the store only grows, a promise below [n] or
    already resolved keeps its state, and the activations and the log are
    only appended to. *)
Record evolves_from (n : nat) (st st' : state) : Prop := Evolves {
  ev_length : length (heap st) ≤ length (heap st');
  ev_heap : ∀ p x, heap st !! p = Some x → p < n ∨ x ≠ Pending →
            heap st' !! p = Some x;
  ev_acts : acts st `prefix_of` acts st';
  ev_log : log st `prefix_of` log st'
}.

(** ** Comparing two executions *)

(** Two states with the same cursor, the same promises and the same
    activations, and logs related by [L]. *)
Definition sim (L : list entry → list entry → Prop) (st st' : state) : Prop :=
  currentIndex st = currentIndex st' ∧ heap st = heap st'
  ∧ acts st = acts st' ∧ L (log st) (log st').

Definition run_sim (L : list entry → list entry → Prop)
    (run run' : value → state → nat * state) : Prop :=
  ∀ d st st', sim L st st' →
    (run d st).1 = (run' d st').1 ∧ sim L (run d st).2 (run' d st').2.

(** Two scripts that drive the engine the same way, up to [L] on the log. *)
Definition script_sim (L : list entry → list entry → Prop) (s s' : script) : Prop :=
  ∀ run run' a act, run_sim L run run' →
    ∀ st st', sim L st st' →
      sim L (run_script (next_with run a act) (a_promise act) s st)
            (run_script (next_with run' a act) (a_promise act) s' st').

(** The same continuation calls and the same way of completing, apart
    from what is returned. *)
Definition same_signals (s s' : script) : Prop :=
  s_calls s = s_calls s'
  ∧ match s_completion s, s_completion s' with
    | Normal _, Normal _ => True
    | Abrupt e, Abrupt e' => e = e'
    | _, _ => False
    end.

(** [s] ends by throwing a truthy [e]; [s'] makes the same calls, then
    calls the continuation with [e], and returns. *)
Definition signals_instead (s s' : script) : Prop :=
  ∃ e nd r, truthy e = true ∧ s_completion s = Abrupt e
            ∧ s' = Script (s_calls s ++ [Call e nd]) (Normal r).

(** ** Order of activation *)

(** The entry [prev] is a continuation call without error made by an
    activation of task [i]. *)
Definition calls_for (A : list activation) (i : nat) (prev : option entry) : Prop :=
  ∃ a act e nd, prev = Some (Continued a e nd) ∧ A !! a = Some act
                ∧ a_index act = i ∧ truthy e = false.

(** Every invocation of a task after the first one in the registry comes
    right after a continuation call of the task before it. *)
Definition ordered (A : list activation) (l : list entry) : Prop :=
  ∀ k i d, l !! k = Some (Invoked (S i) d) →
           ∃ k', k = S k' ∧ calls_for A i (l !! k').

(** What the order argument needs of a [runner] call. *)
Definition keeps_order (i : nat) (run : value → state → nat * state) : Prop :=
  ∀ d st, ordered (acts st) (log st) → calls_for (acts st) i (last (log st)) →
          ordered (acts (run d st).2) (log (run d st).2)
          ∧ evolves_from 0 st (run d st).2.

(** The tasks have been activated once each, in the order of the
    registry, and the cursor is on the last one as long as it has not
    continued. *)
Record in_order (n : nat) (st : state) : Prop := InOrder {
  io_acts : map a_index (acts st) = seq 0 (length (acts st));
  io_log : invoked_indices (log st) = seq 0 (length (acts st));
  io_known : ∀ a, a ∈ continued_ids (log st) → a < length (acts st);
  io_past : ∀ a, S a < length (acts st) → a ∈ continued_ids (log st);
  io_cursor : ∀ m, length (acts st) = S m → m ∉ continued_ids (log st) →
              currentIndex st = Z.of_nat m;
  io_bound : length (acts st) ≤ n
}.

(** The state in which [runner(index, _)] is called when every earlier
    task has continued once. *)
Record ready (n index : nat) (st : state) : Prop := Ready {
  rd_length : length (acts st) = index;
  rd_acts : map a_index (acts st) = seq 0 index;
  rd_log : invoked_indices (log st) = seq 0 index;
  rd_continued : ∀ a, a ∈ continued_ids (log st) ↔ a < index;
  rd_cursor : currentIndex st ≠ Z.of_nat index;
  rd_bound : index ≤ n
}.

(** ** Registering several tasks *)

(** [pipeline.add(t1); pipeline.add(t2); ...], or the chain
    [pipeline.add(t1).add(t2)...]: each call is made on the pipeline the
    call before it returned, and a call that throws ends the sequence. *)
Definition add_all (ts : list task) (this : pipeline) : result pipeline :=
  foldl (λ r t, match r with Returns p => add t p | Throws e => Throws e end)
        (Returns this) ts.

(** ** Tasks that stop the chain *)

(** The task fails at once with [e]: it throws [e] without having called
    its continuation, or it calls its continuation once, with the truthy
    [e]. *)
Definition fails_with (e : value) (t : task) : Prop :=
  ∀ a d, try_block t a d = Script [] (Abrupt e)
         ∨ (truthy e = true ∧ ∃ nd c, try_block t a d = Script [Call e nd] c).

(** The task returns without having called its continuation: an [async]
    function that awaits before it continues, or a task that never
    continues. *)
Definition silent (t : task) : Prop :=
  ∀ a d, ∃ r, try_block t a d = Script [] (Normal r).

(** ** What the tasks receive *)

(** [dataForNextTask] of a continuation call made by a task that
    received [d]. *)
Definition pass (d : value) (c : call) : value :=
  if not_undefined (c_nextData c) then c_nextData c else d.

(** The invocations of the log, each with the payload it received. *)
Definition invocations (l : list entry) : list (nat * value) :=
  omap (λ e, match e with
             | Invoked i d => Some (i, d)
             | Continued _ _ _ => None
             end) l.

(** The invocations of consecutive tasks from [index] on, the first with
    [d], when each passes [f d] to its continuation. *)
Fixpoint trace (index : nat) (d : value) (fs : list (value → value))
    : list (nat * value) :=
  match fs with
  | [] => []
  | f :: fs' => (index, d) :: trace (S index) (forward d f) fs'
  end.

(** The entry [prev] is a continuation call without error made by an
    activation of task [i], and [d] is what it passes on. *)
Definition forwarded_from (A : list activation) (i : nat) (d : value)
    (prev : option entry) : Prop :=
  ∃ a act e nd, prev = Some (Continued a e nd) ∧ A !! a = Some act
                ∧ a_index act = i ∧ truthy e = false
                ∧ d = pass (a_data act) (Call e nd).

(** The activations are the invocations of the log, and every invocation
    of a task after the first one in the registry receives what the
    continuation call right before it passes on. *)
Record chained (st : state) : Prop := Chained {
  ch_acts : map (λ act, (a_index act, a_data act)) (acts st)
            = invocations (log st);
  ch_log : ∀ k i d, log st !! k = Some (Invoked (S i) d) →
           ∃ k', k = S k' ∧ forwarded_from (acts st) i d (log st !! k')
}.

(** What the payload argument needs of a [runner] call. *)
Definition keeps_chain (i : nat) (run : value → state → nat * state) : Prop :=
  ∀ d st, chained st → forwarded_from (acts st) i d (last (log st)) →
          chained (run d st).2 ∧ evolves_from 0 st (run d st).2.

(** ** Continuations that have been called *)

(** Every continuation called since [st] has resolved the promise of its
    activation. *)
Definition calls_resolved_since (st st' : state) : Prop :=
  ∀ a, a ∈ continued_ids (log st') →
       a ∈ continued_ids (log st)
       ∨ ∃ act y, acts st' !! a = Some act
                  ∧ heap st' !! a_promise act = Some y ∧ y ≠ Pending.

(** ** An execution waiting on a task *)



(** ** Which tasks are invoked *)

(** The invocations of [l] are of tasks from [lo] up to, not including,
    [hi]. *)
Definition within (lo hi : nat) (l : list entry) : Prop :=
  ∀ j d, (j, d) ∈ invocations l → lo ≤ j < hi.

(** * Properties *)

Local Close Scope string_scope.

(** ** How a state evolves *)

Lemma evolves_refl n st : evolves_from n st st.
Proof. by split. Qed.

Lemma evolves_trans n st1 st2 st3 :
  evolves_from n st1 st2 → evolves_from n st2 st3 → evolves_from n st1 st3.
Proof.
  intros [L1 H1 A1 G1] [L2 H2 A2 G2]. split.
  - lia.
  - intros p x Hp Hc. apply H2; [by apply H1 | done].
  - by etrans.
  - by etrans.
Qed.

Lemma evolves_weaken n m st st' :
  m ≤ n → evolves_from n st st' → evolves_from m st st'.
Proof.
  intros Hmn [L H A G]. split; [done | | done | done].
  intros p x Hp [Hlt | Hne]; apply H; auto with lia.
Qed.

Lemma evolves_set_currentIndex n i st : evolves_from n st (set_currentIndex i st).
Proof. by split. Qed.

Lemma evolves_record n e st : evolves_from n st (record e st).
Proof. split; simpl; [done | auto | done | by apply prefix_app_r]. Qed.

Lemma evolves_activate n a st : evolves_from n st (activate a st).
Proof. split; simpl; [done | auto | by apply prefix_app_r | done]. Qed.

Lemma evolves_alloc n st :
  evolves_from n st (set_heap (heap st ++ [Pending]) st).
Proof.
  split; simpl; [rewrite length_app; lia | | done | done].
  intros p x Hp _. by apply lookup_app_l_Some.
Qed.

Lemma evolves_alloc_with n x st :
  evolves_from n st (set_heap (heap st ++ [x]) st).
Proof.
  split; simpl; [rewrite length_app; lia | | done | done].
  intros p y Hp _. by apply lookup_app_l_Some.
Qed.

Lemma evolves_settle n p x st :
  n ≤ p → evolves_from n st (settle p x st).
Proof.
  intros Hnp. unfold settle.
  destruct (heap st !! p) as [[| | |]|] eqn:Hp; try apply evolves_refl.
  split; simpl; [by rewrite length_insert | | done | done].
  intros q y Hq Hc. destruct (decide (p = q)) as [->|Hne].
  - rewrite Hp in Hq. destruct Hc as [?|?]; [lia | congruence].
  - by rewrite list_lookup_insert_ne.
Qed.

(** Resolving a promise that is already resolved does nothing. *)
Lemma settle_resolved p x y st :
  heap st !! p = Some y → y ≠ Pending → settle p x st = st.
Proof. intros Hp Hy. unfold settle. rewrite Hp. by destruct y. Qed.

Lemma settle_pending p x st :
  heap st !! p = Some Pending →
  settle p x st = set_heap (<[p := x]> (heap st)) st.
Proof. intros Hp. unfold settle. by rewrite Hp. Qed.

Lemma foldl_evolves {A} n (f : state → A → state) (l : list A) :
  (∀ st a, n ≤ length (heap st) → evolves_from n st (f st a)) →
  ∀ st, n ≤ length (heap st) → evolves_from n st (foldl f st l).
Proof.
  intros Hf. induction l as [|a l IH]; intros st Hn; simpl.
  - apply evolves_refl.
  - pose proof (Hf st a Hn) as Hst.
    eapply evolves_trans; [exact Hst |].
    apply IH. destruct Hst. lia.
Qed.

(** A continuation whose promise is new (not below [n]) or already
    resolved leaves the promises below [n] as they are. *)
Lemma next_with_evolves n run a act c st :
  (∀ d st0, n ≤ length (heap st0) → evolves_from n st0 (run d st0).2) →
  n ≤ length (heap st) →
  n ≤ a_promise act
    ∨ (∃ y, heap st !! a_promise act = Some y ∧ y ≠ Pending) →
  evolves_from n st (next_with run a act c st).
Proof.
  intros Hrun Hn Hp. unfold next_with.
  set (st1 := record _ st).
  assert (E1 : evolves_from n st st1) by apply evolves_record.
  assert (Hsettle : ∀ x st2, evolves_from n st st2 →
            evolves_from n st2 (settle (a_promise act) x st2)).
  { intros x st2 E2. destruct Hp as [Hge | (y & Hy & Hne)].
    - by apply evolves_settle.
    - erewrite settle_resolved; [apply evolves_refl | | exact Hne].
      eapply ev_heap; eauto. }
  destruct (truthy (c_err c)).
  - eapply evolves_trans; [exact E1 |]. by apply Hsettle.
  - destruct (run _ st1) as [r st2] eqn:Hr.
    assert (E2 : evolves_from n st1 st2).
    { pose proof (Hrun (if not_undefined (c_nextData c) then c_nextData c
                        else a_data act) st1) as H.
      rewrite Hr in H. apply H. simpl. done. }
    eapply evolves_trans; [exact E1 |].
    eapply evolves_trans; [exact E2 |].
    apply Hsettle. by eapply evolves_trans.
Qed.

Lemma run_script_evolves n next p s st :
  (∀ c st0, n ≤ length (heap st0) → evolves_from n st0 (next c st0)) →
  n ≤ length (heap st) → n ≤ p →
  evolves_from n st (run_script next p s st).
Proof.
  intros Hnext Hn Hp. unfold run_script.
  assert (E : evolves_from n st (foldl (λ st c, next c st) st (s_calls s))).
  { apply foldl_evolves; [| done]. intros; by apply Hnext. }
  destruct (s_completion s); [done |].
  eapply evolves_trans; [exact E |]. by apply evolves_settle.
Qed.

(** Peel the last operation off the state on the right. *)
Ltac peel lem := eapply evolves_trans; [| apply lem].

(** [runner] touches no promise that existed before the call. *)
Lemma runner_evolves rest : ∀ index data st n,
  n ≤ length (heap st) →
  evolves_from n st (runner rest index data st).2.
Proof.
  induction rest as [|t rest IH]; intros index data st n Hn; simpl;
    destruct (Z.eqb _ _); simpl;
    try (peel evolves_settle;
         [first [apply evolves_alloc
                | peel evolves_set_currentIndex; apply evolves_alloc]
         | simpl; lia]).
  peel evolves_settle; [| simpl; lia].
  peel run_script_evolves.
  - peel evolves_record. peel evolves_activate. peel evolves_alloc.
    peel evolves_set_currentIndex. apply evolves_alloc.
  - intros c st0 Hst0. apply next_with_evolves; simpl.
    + intros d st1 Hst1. by apply IH.
    + done.
    + left. rewrite length_app. lia.
  - simpl. rewrite !length_app. simpl. lia.
  - simpl. rewrite length_app. lia.
Qed.

Lemma next_evolves ts a act c st : evolves_from 0 st (next ts a act c st).
Proof.
  apply next_with_evolves; [| lia | left; lia].
  intros d st0 _. apply runner_evolves. lia.
Qed.

Lemma fire_evolves ts ev st : evolves_from 0 st (fire ts ev st).
Proof.
  unfold fire. destruct (acts st !! ev.1); [apply next_evolves | apply evolves_refl].
Qed.

Lemma run_evolves ts evs st : evolves_from 0 st (run ts evs st).
Proof.
  unfold run. apply foldl_evolves; [| lia]. intros st0 ev _. apply fire_evolves.
Qed.

(** ** What [runner] returns *)

Lemma settle_alloc x st :
  settle (length (heap st)) x (set_heap (heap st ++ [Pending]) st)
  = set_heap (heap st ++ [x]) st.
Proof.
  rewrite settle_pending; simpl.
  - rewrite insert_app_r_alt by lia. by rewrite Nat.sub_diag.
  - rewrite lookup_app_r by lia. by rewrite Nat.sub_diag.
Qed.

Lemma runner_fst rest index data st :
  (runner rest index data st).1 = length (heap st).
Proof. destruct rest; simpl; by destruct (Z.eqb _ _). Qed.

(** The guard: the call returns a promise rejected with the protocol
    error and changes nothing else. *)
Lemma runner_guard rest index data st :
  currentIndex st = Z.of_nat index →
  runner rest index data st
  = (length (heap st), set_heap (heap st ++ [Rejected protocol_error]) st).
Proof.
  intros Hc. destruct rest; simpl; rewrite Hc, Z.eqb_refl;
    f_equal; apply settle_alloc.
Qed.

(** Beyond the last task: the call returns a promise fulfilled with the
    payload. *)
Lemma runner_end index data st :
  currentIndex st ≠ Z.of_nat index →
  runner [] index data st
  = (length (heap st),
     set_currentIndex (Z.of_nat index)
       (set_heap (heap st ++ [Fulfilled data]) st)).
Proof.
  intros Hc. simpl. destruct (Z.eqb_spec (Z.of_nat index) (currentIndex st));
    [congruence |].
  f_equal. unfold fulfil.
  change (set_currentIndex (Z.of_nat index) (set_heap (heap st ++ [Pending]) st))
    with (set_heap (heap (set_currentIndex (Z.of_nat index) st) ++ [Pending])
            (set_currentIndex (Z.of_nat index) st)).
  change (length (heap st)) with (length (heap (set_currentIndex (Z.of_nat index) st))).
  by rewrite settle_alloc.
Qed.

(** On a task: the call's result in terms of the state in which the task
    is invoked. *)
Lemma runner_task t rest index data st :
  currentIndex st ≠ Z.of_nat index →
  runner (t :: rest) index data st
  = (length (heap st),
     resolve (length (heap st)) (S (length (heap st)))
       (run_script
          (next_with (runner rest (S index)) (length (acts st))
             {| a_index := index; a_data := data;
                a_promise := S (length (heap st)) |})
          (S (length (heap st)))
          (try_block t (length (acts st)) data)
          (entered index data st))).
Proof.
  intros Hc. simpl. destruct (Z.eqb_spec (Z.of_nat index) (currentIndex st));
    [congruence |].
  simpl. unfold entered. rewrite length_app, Nat.add_1_r.
  by rewrite <- app_assoc.
Qed.

(** The promise [runner] returns is resolved when the call returns. *)
Lemma runner_resolved rest index data st :
  ∃ y, heap (runner rest index data st).2 !! length (heap st) = Some y
       ∧ y ≠ Pending.
Proof.
  destruct (decide (currentIndex st = Z.of_nat index)) as [Hc|Hc].
  - rewrite runner_guard by done. simpl.
    exists (Rejected protocol_error). split; [| done].
    rewrite lookup_app_r by lia. by rewrite Nat.sub_diag.
  - destruct rest as [|t rest].
    + rewrite runner_end by done. simpl.
      exists (Fulfilled data). split; [| done].
      rewrite lookup_app_r by lia. by rewrite Nat.sub_diag.
    + rewrite runner_task by done. simpl.
      set (st1 := run_script _ _ _ _).
      assert (E : evolves_from (S (length (heap st))) (entered index data st) st1).
      { apply run_script_evolves; simpl.
        - intros c st0 Hst0. apply next_with_evolves; simpl; [| done | left; lia].
          intros d st2 Hst2. by apply runner_evolves.
        - rewrite length_app. simpl. lia.
        - lia. }
      assert (Hp : heap st1 !! length (heap st) = Some Pending).
      { eapply ev_heap; [exact E | | left; lia]. simpl.
        rewrite lookup_app_r by lia. by rewrite Nat.sub_diag. }
      exists (Follows (S (length (heap st)))). split; [| done].
      unfold resolve. rewrite settle_pending by done. simpl.
      apply list_lookup_insert_eq. by eapply lookup_lt_Some.
Qed.

(** ** Following adoption links *)

Lemma chase_stop fuel h p x :
  h !! p = Some x → (∀ q, x ≠ Follows q) → chase fuel h p = p.
Proof.
  intros Hp Hx. destruct fuel; simpl; [done |].
  rewrite Hp. destruct x; try done. by destruct (Hx p0).
Qed.

(** Once the chain from [p] ends in a settled promise, it ends there in
    every later store, whatever the fuel. *)
Lemma chase_stable h h' : 
  (∀ r y, h !! r = Some y → y ≠ Pending → h' !! r = Some y) →
  ∀ fuel fuel' p q x,
    chase fuel h p = q → h !! q = Some x → settled x → fuel ≤ fuel' →
    chase fuel' h' p = q.
Proof.
  intros Hh. induction fuel as [|fuel IH]; intros fuel' p q x Hq Hx Hs Hf.
  - simpl in Hq. subst q. eapply chase_stop.
    + apply Hh; [exact Hx |]. by destruct x.
    + intros q ->. done.
  - simpl in Hq. destruct (h !! p) as [y|] eqn:Hp.
    + destruct y as [|v|e|r].
      1-3: subst q; rewrite Hp in Hx; injection Hx as <-; done || (
           eapply chase_stop; [apply Hh; [exact Hp | done] | done]).
      destruct fuel' as [|fuel']; [lia |]. simpl.
      rewrite (Hh p (Follows r) Hp) by done.
      eapply IH; eauto with lia.
    + subst q. congruence.
Qed.

(** The chain from [p] to a pending promise [q] is still there in a later
    store: with at least [g] more fuel the chase gets to [q] with at least
    [g] fuel left. *)
Lemma chase_forward h h' :
  (∀ r y, h !! r = Some y → y ≠ Pending → h' !! r = Some y) →
  ∀ fuel p q g,
    chase fuel h p = q → h !! q = Some Pending →
    ∃ g', g ≤ g' ∧ chase (fuel + g) h' p = chase g' h' q.
Proof.
  intros Hh. induction fuel as [|fuel IH]; intros p q g Hq Hx.
  - simpl in Hq. subst q. exists g. done.
  - simpl in Hq. destruct (h !! p) as [y|] eqn:Hp.
    + destruct y as [|v|e|r]; try (subst q; exists (S fuel + g); split; [lia | done]).
      simpl. rewrite (Hh p (Follows r) Hp) by done. by apply IH.
    + subst q. exists (S fuel + g). split; [lia | done].
Qed.

Lemma outcome_settled_lookup st p x :
  outcome st p = x → settled x → heap st !! terminus st p = Some x.
Proof.
  unfold outcome. intros Hx Hs.
  destruct (heap st !! terminus st p) as [y|]; simpl in Hx; subst; done.
Qed.

(** A settled outcome is final. *)
Lemma outcome_stable st st' p x :
  evolves_from 0 st st' → outcome st p = x → settled x → outcome st' p = x.
Proof.
  intros E Hx Hs. pose proof (outcome_settled_lookup _ _ _ Hx Hs) as Hl.
  assert (Ht : terminus st' p = terminus st p).
  { unfold terminus. eapply chase_stable; [| reflexivity | exact Hl | exact Hs |].
    - intros r y Hr Hy. eapply ev_heap; eauto.
    - by destruct E. }
  unfold outcome at 1. rewrite Ht.
  rewrite (ev_heap _ _ _ E _ x Hl); [done |]. right. by destruct x.
Qed.


Lemma outcome_here st p x :
  heap st !! p = Some x → (∀ q, x ≠ Follows q) → outcome st p = x.
Proof.
  intros Hp Hx. unfold outcome, terminus.
  erewrite chase_stop by eauto. by rewrite Hp.
Qed.

Lemma outcome_follow st p q x :
  heap st !! p = Some (Follows q) → heap st !! q = Some x →
  (∀ r, x ≠ Follows r) → outcome st p = x.
Proof.
  intros Hp Hq Hx. unfold outcome, terminus.
  pose proof (lookup_lt_Some _ _ _ Hp) as Hlt.
  destruct (length (heap st)) as [|fuel] eqn:Hlen; [lia |].
  simpl. rewrite Hp. erewrite chase_stop by eauto. by rewrite Hq.
Qed.

Lemma settle_lookup_eq p x st :
  heap st !! p = Some Pending → heap (settle p x st) !! p = Some x.
Proof.
  intros Hp. rewrite settle_pending by done. simpl.
  apply list_lookup_insert_eq. by eapply lookup_lt_Some.
Qed.

Lemma settle_lookup_ne p q x st :
  p ≠ q → heap (settle p x st) !! q = heap st !! q.
Proof.
  intros Hne. unfold settle.
  destruct (heap st !! p) as [[| | |]|]; try done.
  simpl. by rewrite list_lookup_insert_ne.
Qed.

Lemma settle_log p x st : log (settle p x st) = log st.
Proof. unfold settle. by destruct (heap st !! p) as [[| | |]|]. Qed.

Lemma settle_acts p x st : acts (settle p x st) = acts st.
Proof. unfold settle. by destruct (heap st !! p) as [[| | |]|]. Qed.

Lemma settle_currentIndex p x st : currentIndex (settle p x st) = currentIndex st.
Proof. unfold settle. by destruct (heap st !! p) as [[| | |]|]. Qed.

Lemma settle_length p x st : length (heap (settle p x st)) = length (heap st).
Proof.
  unfold settle. destruct (heap st !! p) as [[| | |]|]; try done.
  simpl. by rewrite length_insert.
Qed.

(** ** The class test *)

Lemma starts_with_app prefix s rest :
  starts_with prefix s = Some rest ↔ s = prefix ++ rest.
Proof.
  revert s. induction prefix as [|p prefix IH]; intros s; simpl.
  - split; [by intros [= ->] | by intros ->].
  - destruct s as [|c s]; [split; [done | intros [=]] |].
    destruct (N.eqb_spec p c) as [->|Hne].
    + rewrite IH. split; [by intros -> | by intros [= ->]].
    + split; [done | intros [= <- _]; done].
Qed.

(** The test succeeds exactly on the texts that begin with [class] and a
    white-space character. *)
Lemma class_regex_test_spec s :
  class_regex_test s = true
  ↔ ∃ c rest, s = ascii_text "class" ++ c :: rest ∧ regex_space c = true.
Proof.
  unfold class_regex_test. split.
  - destruct (starts_with _ s) as [[|c rest]|] eqn:Hs; try done.
    intros Hc. exists c, rest. split; [| done]. by apply starts_with_app.
  - intros (c & rest & -> & Hc).
    assert (H : starts_with (ascii_text "class") (ascii_text "class" ++ c :: rest)
                = Some (c :: rest)) by by apply starts_with_app.
    by rewrite H.
Qed.

Example class_declaration_detected :
  class_regex_test (ascii_text "class Task { constructor(data, next) { } }") = true.
Proof. reflexivity. Qed.

Example function_declaration_not_a_class :
  class_regex_test (ascii_text "function Task(data, next) { this.data = data; }") = false.
Proof. reflexivity. Qed.

Example class_without_space_not_detected :
  class_regex_test (ascii_text "class{constructor(data,next){next()}}") = false.
Proof. reflexivity. Qed.

(** ** Calling a continuation again *)

(** Once the promise of an activation is resolved, a further call of its
    continuation changes no promise that exists at the time of the call:
    whatever the call produces is new and unobserved. *)
Lemma next_after_resolution ts a act c st y :
  heap st !! a_promise act = Some y → y ≠ Pending →
  evolves_from (length (heap st)) st (next ts a act c st).
Proof.
  intros Hy Hne. apply next_with_evolves; [| lia | right; eauto].
  intros d st0 Hst0. by apply runner_evolves.
Qed.

(** Where the guard does reject the execution. The first task continues
    twice, the second continues at once, the third continues later. The
    second call of the first task replays the second and third tasks;
    when the replayed third task has continued, the continuation of its
    first activation, called once, finds the cursor beyond it. *)
Example guard_rejects_a_single_call :
  let ts := [continues_later; continues_once; continues_later] in
  let r := execute {| tasks := ts |} (VNumber 7) in
  let st := run ts [(0, continue_); (0, continue_); (4, continue_); (2, continue_)] r.2 in
  invoked_indices (log st) = [0; 1; 2; 1; 2]
  ∧ continued_ids (log st) = [0; 1; 0; 3; 4; 2]
  ∧ outcome st r.1 = Rejected protocol_error.
Proof. repeat split. Qed.

(** ** One continuation call *)

(** A chain that ended in a pending promise, which now follows a settled
    one, is decided by it. *)
Lemma outcome_resolved_chain st st' e p q x :
  evolves_from 0 st st' →
  terminus st e = p → heap st !! p = Some Pending →
  heap st' !! p = Some (Follows q) → heap st' !! q = Some x → settled x →
  length (heap st) < length (heap st') →
  outcome st' e = x.
Proof.
  intros E Ht Hp Hp' Hq Hs Hlen.
  destruct (chase_forward (heap st) (heap st')) with
    (fuel := length (heap st)) (p := e) (q := p)
    (g := length (heap st') - length (heap st)) as (g' & Hg & Hc);
    [intros r y Hr Hy; eapply ev_heap; eauto | exact Ht | exact Hp |].
  unfold outcome, terminus.
  replace (length (heap st')) with
    (length (heap st) + (length (heap st') - length (heap st))) at 1 by lia.
  rewrite Hc. destruct g' as [|g']; [lia |]. simpl. rewrite Hp'.
  erewrite chase_stop; [by rewrite Hq | exact Hq |].
  intros r ->. done.
Qed.

Lemma next_falsy ts a act c st :
  truthy (c_err c) = false →
  next ts a act c st
  = resolve (a_promise act) (length (heap st))
      (runner (drop (S (a_index act)) ts) (S (a_index act))
         (if not_undefined (c_nextData c) then c_nextData c else a_data act)
         (record (Continued a (c_err c) (c_nextData c)) st)).2.
Proof.
  intros He. unfold next, next_with. rewrite He.
  destruct (runner _ _ _ _) as [r st2] eqn:Hr.
  pose proof (runner_fst (drop (S (a_index act)) ts) (S (a_index act))
    (if not_undefined (c_nextData c) then c_nextData c else a_data act)
    (record (Continued a (c_err c) (c_nextData c)) st)) as Hfst.
  rewrite Hr in Hfst. simpl in Hfst. by subst r.
Qed.


(** ** Two executions side by side *)

Section Simulation.
Context (L : list entry → list entry → Prop).
Context (L_record : ∀ l l' e, L l l' → L (l ++ [e]) (l' ++ [e])).

Lemma sim_settle p x st st' :
  sim L st st' → sim L (settle p x st) (settle p x st').
Proof.
  intros (Hc & Hh & Ha & Hl). unfold settle. rewrite <- Hh.
  destruct (heap st !! p) as [[| | |]|]; repeat split; simpl; congruence.
Qed.

Lemma sim_record e st st' :
  sim L st st' → sim L (record e st) (record e st').
Proof. intros (Hc & Hh & Ha & Hl). repeat split; simpl; auto. Qed.

Lemma next_with_sim run run' a act c st st' :
  run_sim L run run' → sim L st st' →
  sim L (next_with run a act c st) (next_with run' a act c st').
Proof.
  intros Hrun Hs. unfold next_with.
  pose proof (sim_record (Continued a (c_err c) (c_nextData c)) _ _ Hs) as H1.
  destruct (truthy (c_err c)); [by apply sim_settle |].
  specialize (Hrun (if not_undefined (c_nextData c) then c_nextData c
                    else a_data act) _ _ H1).
  destruct (run _ _) as [r st2], (run' _ _) as [r' st2'].
  simpl in Hrun. destruct Hrun as [-> H2]. by apply sim_settle.
Qed.

Lemma calls_sim run run' a act calls : ∀ st st',
  run_sim L run run' → sim L st st' →
  sim L (foldl (λ st c, next_with run a act c st) st calls)
        (foldl (λ st c, next_with run' a act c st) st' calls).
Proof.
  induction calls as [|c calls IH]; intros st st' Hrun Hs; simpl; [done |].
  apply IH; [done |]. by apply next_with_sim.
Qed.

Lemma same_signals_sim s s' : same_signals s s' → script_sim L s s'.
Proof.
  intros [Hcalls Hend] run run' a act Hrun st st' Hs. unfold run_script.
  rewrite <- Hcalls.
  pose proof (calls_sim run run' a act (s_calls s) st st' Hrun Hs) as H.
  destruct (s_completion s), (s_completion s'); try done.
  subst. by apply sim_settle.
Qed.

Lemma script_sim_refl s : script_sim L s s.
Proof. apply same_signals_sim. split; [done |]. by destruct (s_completion s). Qed.

Lemma runner_sim rest rest' :
  Forall2 (λ t t', ∀ a d, script_sim L (try_block t a d) (try_block t' a d))
    rest rest' →
  ∀ index, run_sim L (runner rest index) (runner rest' index).
Proof.
  induction 1 as [|t t' rest rest' Ht Hrest IH]; intros index d st st' Hs.
  - destruct Hs as (Hc & Hh & Ha & Hl). simpl. rewrite <- Hc, <- Hh.
    destruct (Z.eqb _ _); simpl; (split; [done |]);
      apply sim_settle; repeat split; simpl; congruence.
  - destruct (decide (currentIndex st = Z.of_nat index)) as [Hi|Hi].
    + rewrite !runner_guard by (destruct Hs as (Hc & _); congruence).
      destruct Hs as (Hc & Hh & Ha & Hl). simpl. rewrite Hh.
      repeat split; simpl; congruence.
    + rewrite !runner_task by (destruct Hs as (Hc & _); congruence).
      assert (He : sim L (entered index d st) (entered index d st')).
      { destruct Hs as (Hc & Hh & Ha & Hl).
        repeat split; simpl; try congruence. by apply L_record. }
      destruct Hs as (Hc & Hh & Ha & Hl). rewrite <- Hh, <- Ha. simpl.
      split; [done |]. apply sim_settle.
      apply (Ht (length (acts st)) d (runner rest (S index))
               (runner rest' (S index)) (length (acts st))
               {| a_index := index; a_data := d;
                  a_promise := S (length (heap st)) |}); [apply IH | done].
Qed.

Lemma fire_sim ts ts' ev st st' :
  Forall2 (λ t t', ∀ a d, script_sim L (try_block t a d) (try_block t' a d))
    ts ts' →
  sim L st st' → sim L (fire ts ev st) (fire ts' ev st').
Proof.
  intros Hts Hs. unfold fire.
  assert (Ha : acts st = acts st') by by destruct Hs as (_ & _ & ? & _).
  rewrite <- Ha. destruct (acts st !! ev.1) as [act|]; [| done].
  apply next_with_sim; [| done].
  apply runner_sim. by apply Forall2_drop.
Qed.

Lemma events_sim ts ts' evs : ∀ st st',
  Forall2 (λ t t', ∀ a d, script_sim L (try_block t a d) (try_block t' a d))
    ts ts' →
  sim L st st' → sim L (run ts evs st) (run ts' evs st').
Proof.
  unfold run. induction evs as [|ev evs IH]; intros st st' Hts Hs; simpl; [done |].
  apply IH; [done |]. by apply fire_sim.
Qed.

Lemma execute_sim ts ts' x evs :
  L [] [] →
  Forall2 (λ t t', ∀ a d, script_sim L (try_block t a d) (try_block t' a d))
    ts ts' →
  let r := execute {| tasks := ts |} x in
  let r' := execute {| tasks := ts' |} x in
  r.1 = r'.1 ∧ sim L (run ts evs r.2) (run ts' evs r'.2).
Proof.
  intros Hnil Hts. unfold execute. simpl.
  assert (H0 : sim L (set_heap [Pending] initial) (set_heap [Pending] initial))
    by (repeat split; done).
  pose proof (runner_sim ts ts' Hts 0 x _ _ H0) as [H1 H2].
  destruct (runner ts 0 x _) as [p st1], (runner ts' 0 x _) as [p' st1'].
  simpl in *. subst p'. split; [done |].
  apply events_sim; [done |]. by apply sim_settle.
Qed.
End Simulation.

Lemma sim_outcome L st st' p : sim L st st' → outcome st p = outcome st' p.
Proof. intros (_ & Hh & _). unfold outcome, terminus. by rewrite Hh. Qed.

Lemma sim_eq st st' : sim eq st st' → st = st'.
Proof.
  destruct st, st'. simpl. intros (Hc & Hh & Ha & Hl). simpl in *. congruence.
Qed.

Lemma signals_instead_sim s s' :
  signals_instead s s' → script_sim (λ _ _, True) s s'.
Proof.
  intros (e & nd & r & He & Hend & ->) run run' a act Hrun st st' Hs.
  unfold run_script. rewrite Hend. simpl. rewrite foldl_app. simpl.
  pose proof (calls_sim (λ _ _, True) (λ _ _ _ _, I) run run' a act
                (s_calls s) st st' Hrun Hs) as H.
  unfold next_with at 2. simpl. rewrite He.
  apply sim_settle. destruct H as (Hc & Hh & Ha & _). by repeat split.
Qed.

Lemma settle_heap p x st st' :
  heap st = heap st' → heap (settle p x st) = heap (settle p x st').
Proof.
  intros H. unfold settle. rewrite <- H.
  destruct (heap st !! p) as [[| | |]|]; simpl; congruence.
Qed.

(** A step whose executor rejects its promise first is rejected. *)
Lemma step_rejected r p e st :
  r ≠ p → heap st !! r = Some Pending → heap st !! p = Some Pending →
  outcome (resolve r p (reject p e st)) r = Rejected e.
Proof.
  intros Hne Hr Hp. unfold resolve, reject. eapply outcome_follow.
  - apply settle_lookup_eq. by rewrite settle_lookup_ne.
  - rewrite settle_lookup_ne by done. by apply settle_lookup_eq.
  - done.
Qed.

(** ** Order: each task starts from a continuation of the one before *)

Lemma ordered_mono A A' l : A `prefix_of` A' → ordered A l → ordered A' l.
Proof.
  intros HA Hl k i d Hk. destruct (Hl k i d Hk) as (k' & -> & a & act & e & nd & H1 & H2 & H3).
  exists k'. split; [done |]. exists a, act, e, nd. split; [done |].
  split; [| done]. by eapply prefix_lookup_Some.
Qed.

Lemma ordered_continued A l a e nd :
  ordered A l → ordered A (l ++ [Continued a e nd]).
Proof.
  intros Hl k i d Hk.
  destruct (decide (k < length l)) as [Hlt|Hge].
  - rewrite lookup_app_l in Hk by done.
    destruct (Hl k i d Hk) as (k' & -> & H). exists k'. split; [done |].
    rewrite lookup_app_l by lia. done.
  - rewrite lookup_app_r in Hk by lia.
    destruct (k - length l) as [|j]; simpl in Hk; [discriminate |].
    by rewrite lookup_nil in Hk.
Qed.

Lemma ordered_invoked A l index d :
  ordered A l → (∀ i, index = S i → calls_for A i (last l)) →
  ordered A (l ++ [Invoked index d]).
Proof.
  intros Hl Hlast k i d' Hk.
  destruct (decide (k < length l)) as [Hlt|Hge].
  - rewrite lookup_app_l in Hk by done.
    destruct (Hl k i d' Hk) as (k' & -> & H). exists k'. split; [done |].
    rewrite lookup_app_l by lia. done.
  - rewrite lookup_app_r in Hk by lia.
    destruct (k - length l) as [|j] eqn:Hj; simpl in Hk;
      [| by rewrite lookup_nil in Hk].
    injection Hk as -> ->. assert (k = length l) as -> by lia.
    specialize (Hlast i eq_refl).
    destruct Hlast as (a & act & e & nd & H1 & H2).
    destruct l as [|x l] using rev_ind; [discriminate |].
    rewrite last_snoc in H1. rewrite length_app. simpl.
    exists (length l). split; [lia |].
    exists a, act, e, nd. split; [| done].
    rewrite lookup_app_l by (rewrite length_app; simpl; lia).
    rewrite lookup_app_r by lia. by rewrite Nat.sub_diag.
Qed.

Lemma ordered_settle p x st :
  ordered (acts st) (log st) →
  ordered (acts (settle p x st)) (log (settle p x st)).
Proof. by rewrite settle_acts, settle_log. Qed.

Lemma next_with_ordered run a act c st :
  keeps_order (a_index act) run →
  acts st !! a = Some act →
  ordered (acts st) (log st) →
  ordered (acts (next_with run a act c st)) (log (next_with run a act c st))
  ∧ evolves_from 0 st (next_with run a act c st).
Proof.
  intros Hrun Ha Ho. unfold next_with.
  set (st1 := record _ st).
  assert (Ho1 : ordered (acts st1) (log st1)) by by apply ordered_continued.
  assert (E1 : evolves_from 0 st st1) by apply evolves_record.
  destruct (truthy (c_err c)) eqn:He.
  - split; [by apply ordered_settle |].
    eapply evolves_trans; [exact E1 | apply evolves_settle; lia].
  - destruct (Hrun (if not_undefined (c_nextData c) then c_nextData c
                    else a_data act) st1 Ho1) as [Ho2 E2].
    { exists a, act, (c_err c), (c_nextData c). simpl. by rewrite last_snoc. }
    destruct (run _ st1) as [r st2]. simpl in *.
    split; [by apply ordered_settle |].
    eapply evolves_trans; [exact E1 |].
    eapply evolves_trans; [exact E2 | apply evolves_settle; lia].
Qed.

Lemma runner_ordered rest : ∀ index d st,
  ordered (acts st) (log st) →
  (∀ i, index = S i → calls_for (acts st) i (last (log st))) →
  ordered (acts (runner rest index d st).2) (log (runner rest index d st).2).
Proof.
  induction rest as [|t rest IH]; intros index d st Ho Hlast.
  - destruct (decide (currentIndex st = Z.of_nat index)) as [Hc|Hc].
    + by rewrite runner_guard.
    + by rewrite runner_end.
  - destruct (decide (currentIndex st = Z.of_nat index)) as [Hc|Hc];
      [by rewrite runner_guard |].
    rewrite runner_task by done. cbn [snd]. apply ordered_settle.
    unfold run_script.
    set (act := {| a_index := index; a_data := d; a_promise := S (length (heap st)) |}).
    set (next := next_with (runner rest (S index)) (length (acts st)) act).
    assert (Hfold : ∀ calls st0,
              acts st0 !! length (acts st) = Some act →
              ordered (acts st0) (log st0) →
              ordered (acts (foldl (λ st c, next c st) st0 calls))
                      (log (foldl (λ st c, next c st) st0 calls))).
    { induction calls as [|c calls IHc]; intros st0 Ha0 Ho0; simpl; [done |].
      destruct (next_with_ordered (runner rest (S index)) (length (acts st))
                  act c st0) as [Ho1 E1]; [| done | done |].
      - intros d0 st1 Ho1 Hl1. split; [| apply runner_evolves; lia].
        apply IH; [done |]. by intros i [= <-].
      - apply IHc; [| done].
        eapply prefix_lookup_Some; [exact Ha0 | apply (ev_acts _ _ _ E1)]. }
    assert (Hent : ordered (acts (entered index d st)) (log (entered index d st))).
    { simpl. apply ordered_invoked.
      - eapply ordered_mono; [| exact Ho]. by apply prefix_app_r.
      - intros i Hi. destruct (Hlast i Hi) as (a & act0 & e & nd & H1 & H2 & H3).
        exists a, act0, e, nd. split; [done |]. split; [| done].
        by apply lookup_app_l_Some. }
    assert (Hact : acts (entered index d st) !! length (acts st) = Some act).
    { simpl. rewrite lookup_app_r by lia. by rewrite Nat.sub_diag. }
    destruct (s_completion _); [by apply Hfold |].
    apply ordered_settle. by apply Hfold.
Qed.

Lemma fire_ordered ts ev st :
  ordered (acts st) (log st) →
  ordered (acts (fire ts ev st)) (log (fire ts ev st)).
Proof.
  intros Ho. unfold fire. destruct (acts st !! ev.1) as [act|] eqn:Ha; [| done].
  apply next_with_ordered; [| done | done].
  intros d st1 Ho1 Hl1. split; [| apply runner_evolves; lia].
  apply runner_ordered; [done |]. by intros i [= <-].
Qed.

Lemma execute_ordered ts x evs :
  let st := run ts evs (execute {| tasks := ts |} x).2 in
  ordered (acts st) (log st).
Proof.
  simpl. unfold execute. simpl.
  pose proof (runner_ordered ts 0 x (set_heap [Pending] initial)) as H.
  destruct (runner ts 0 x _) as [r st1]. simpl in *.
  assert (H1 : ordered (acts (resolve 0 r st1)) (log (resolve 0 r st1))).
  { apply ordered_settle. apply H; [| done]. intros k i d Hk. by destruct k. }
  revert H1. generalize (resolve 0 r st1). clear.
  induction evs as [|ev evs IH]; intros st Ho; simpl; [done |].
  apply IH. by apply fire_ordered.
Qed.

(** ** Order: one activation per task when no continuation is called twice *)

Lemma continued_ids_continued l a e nd :
  continued_ids (l ++ [Continued a e nd]) = continued_ids l ++ [a].
Proof. unfold continued_ids. by rewrite omap_app. Qed.

Lemma continued_ids_invoked l i d :
  continued_ids (l ++ [Invoked i d]) = continued_ids l.
Proof. unfold continued_ids. rewrite omap_app. simpl. by rewrite app_nil_r. Qed.

Lemma invoked_indices_continued l a e nd :
  invoked_indices (l ++ [Continued a e nd]) = invoked_indices l.
Proof. unfold invoked_indices. rewrite omap_app. simpl. by rewrite app_nil_r. Qed.

Lemma invoked_indices_invoked l i d :
  invoked_indices (l ++ [Invoked i d]) = invoked_indices l ++ [i].
Proof. unfold invoked_indices. by rewrite omap_app. Qed.

Lemma continued_ids_prefix l l' :
  l `prefix_of` l' → continued_ids l `prefix_of` continued_ids l'.
Proof.
  intros [k ->]. unfold continued_ids. rewrite omap_app. by apply prefix_app_r.
Qed.

Lemma NoDup_prefix {A} (l l' : list A) : l `prefix_of` l' → NoDup l' → NoDup l.
Proof. intros [k ->] H. by apply NoDup_app in H as (? & _). Qed.

(** A log in which no continuation is called twice has no earlier state
    in which one was. *)
Lemma once_earlier st st' :
  evolves_from 0 st st' →
  NoDup (continued_ids (log st')) → NoDup (continued_ids (log st)).
Proof.
  intros E. apply NoDup_prefix, continued_ids_prefix. by destruct E.
Qed.

Lemma in_order_settle n p x st : in_order n st → in_order n (settle p x st).
Proof.
  intros [H1 H2 H3 H4 H5 H6].
  split; rewrite ?settle_acts, ?settle_log, ?settle_currentIndex; done.
Qed.

Lemma in_order_continued n a e nd st :
  in_order n st → a < length (acts st) →
  in_order n (record (Continued a e nd) st).
Proof.
  intros [H1 H2 H3 H4 H5 H6] Ha. split; simpl.
  - done.
  - by rewrite invoked_indices_continued.
  - intros b. rewrite continued_ids_continued, elem_of_app, list_elem_of_singleton.
    intros [Hb | ->]; auto.
  - intros b Hb. rewrite continued_ids_continued, elem_of_app. auto.
  - intros m Hm Hnot. apply H5; [done |].
    rewrite continued_ids_continued, elem_of_app in Hnot. tauto.
  - done.
Qed.

Lemma ready_enter n index d st :
  ready n index st → S index ≤ n →
  in_order n (entered index d st)
  ∧ index ∉ continued_ids (log (entered index d st)).
Proof.
  intros [H1 H2 H3 H4 H5 H6] Hn. split; [split |]; simpl.
  - rewrite map_app, length_app, H1, H2. simpl.
    by rewrite Nat.add_1_r, seq_S.
  - rewrite invoked_indices_invoked, length_app, H1, H3. simpl.
    by rewrite Nat.add_1_r, seq_S.
  - intros a. rewrite continued_ids_invoked, length_app, H4. simpl. lia.
  - intros a. rewrite continued_ids_invoked, length_app, H4. simpl. lia.
  - intros m. rewrite length_app, H1. simpl. intros Hm _. f_equal. lia.
  - rewrite length_app, H1. simpl. lia.
  - rewrite continued_ids_invoked, H4. lia.
Qed.

(** Once the last activation continues without error, [runner] is called
    for the next index in a ready state. *)
Lemma in_order_ready n a e nd st :
  in_order n st → length (acts st) = S a → a ∉ continued_ids (log st) →
  S a ≤ n → ready n (S a) (record (Continued a e nd) st).
Proof.
  intros [H1 H2 H3 H4 H5 H6] Ha Hnot Hn. split; simpl.
  - done.
  - by rewrite H1, Ha.
  - by rewrite invoked_indices_continued, H2, Ha.
  - intros b. rewrite continued_ids_continued, elem_of_app, list_elem_of_singleton.
    split.
    + intros [Hb | ->]; [| lia]. apply H3 in Hb. lia.
    + intros Hb. destruct (decide (b = a)) as [->|Hne]; [by right | left].
      apply H4. lia.
  - rewrite (H5 a Ha Hnot). lia.
  - done.
Qed.

Lemma next_with_runner_evolves rest i a act c st :
  evolves_from 0 st (next_with (runner rest i) a act c st).
Proof.
  apply next_with_evolves; [| lia | left; lia].
  intros d st0 _. apply runner_evolves. lia.
Qed.

Lemma calls_evolve rest i a act calls st :
  evolves_from 0 st (foldl (λ st c, next_with (runner rest i) a act c st) st calls).
Proof.
  apply foldl_evolves; [| lia]. intros st0 c _. apply next_with_runner_evolves.
Qed.

(** The log of a continuation call starts with the call. *)
Lemma next_with_log rest i a act c st :
  (log st ++ [Continued a (c_err c) (c_nextData c)])
    `prefix_of` log (next_with (runner rest i) a act c st).
Proof.
  unfold next_with. set (st1 := record _ st).
  destruct (truthy (c_err c)).
  - unfold reject. by rewrite settle_log.
  - pose proof (runner_evolves rest i
      (if not_undefined (c_nextData c) then c_nextData c else a_data act)
      st1 0 ltac:(lia)) as E.
    destruct (runner _ _ _ st1) as [r st2]. simpl in E.
    unfold resolve. rewrite settle_log. apply (ev_log _ _ _ E).
Qed.

(** One continuation call of the last activation, the first it makes. *)
Lemma next_with_in_order rest n a act c st :
  (∀ d st0, ready n (S a) st0 →
     NoDup (continued_ids (log (runner rest (S a) d st0).2)) →
     in_order n (runner rest (S a) d st0).2) →
  in_order n st → length (acts st) = S a → a ∉ continued_ids (log st) →
  NoDup (continued_ids (log (next_with (runner rest (S a)) a act c st))) →
  in_order n (next_with (runner rest (S a)) a act c st).
Proof.
  intros Hrun Hio Ha Hnot. unfold next_with.
  set (st1 := record _ st).
  destruct (truthy (c_err c)).
  - intros _. apply in_order_settle, in_order_continued; [done | lia].
  - pose proof (Hrun (if not_undefined (c_nextData c) then c_nextData c
                      else a_data act) st1) as H.
    destruct (runner _ _ _ st1) as [r st2]. simpl in H.
    unfold resolve. rewrite settle_log. intros Hnd.
    apply in_order_settle, H; [| done].
    apply in_order_ready; try done.
    destruct Hio. lia.
Qed.

(** A second call of the same continuation shows in the log. *)
Lemma second_call_shows rest i a act c calls st :
  a ∈ continued_ids (log st) →
  ¬ NoDup (continued_ids
             (log (foldl (λ st c, next_with (runner rest i) a act c st) st
                     (c :: calls)))).
Proof.
  intros Hin Hnd. simpl in Hnd.
  eapply once_earlier in Hnd; [| apply calls_evolve].
  eapply NoDup_prefix in Hnd;
    [| apply continued_ids_prefix, next_with_log].
  rewrite continued_ids_continued in Hnd.
  apply NoDup_app in Hnd as (_ & Hdisj & _).
  apply (Hdisj a Hin). by apply list_elem_of_singleton.
Qed.

Lemma runner_in_order rest : ∀ index d st n,
  index + length rest = n → ready n index st →
  NoDup (continued_ids (log (runner rest index d st).2)) →
  in_order n (runner rest index d st).2.
Proof.
  induction rest as [|t rest IH]; intros index d st n Hn Hr.
  - pose proof (rd_cursor _ _ _ Hr) as Hc. rewrite runner_end by done.
    intros _. destruct Hr as [H1 H2 H3 H4 H5 H6]. split; simpl.
    + by rewrite H1.
    + by rewrite H1.
    + intros a. rewrite H1. apply H4.
    + intros a. rewrite H1, H4. lia.
    + intros m. rewrite H1, H4. lia.
    + lia.
  - pose proof (rd_cursor _ _ _ Hr) as Hc. rewrite runner_task by done.
    cbn [snd]. unfold resolve. rewrite settle_log. intros Hnd.
    apply in_order_settle.
    simpl in Hn. destruct (ready_enter n index d st Hr ltac:(lia)) as [Hio Hnot].
    pose proof (rd_length _ _ _ Hr) as Hlen. rewrite Hlen in *.
    assert (Hlen' : length (acts (entered index d st)) = S index).
    { simpl. rewrite length_app. simpl. lia. }
    revert Hnd. unfold run_script.
    set (act := {| a_index := index; a_data := d; a_promise := S (length (heap st)) |}).
    set (s := try_block t index d).
    assert (Hfold : NoDup (continued_ids (log
                (foldl (λ st c, next_with (runner rest (S index)) index act c st)
                   (entered index d st) (s_calls s)))) →
              in_order n (foldl (λ st c, next_with (runner rest (S index)) index act c st)
                   (entered index d st) (s_calls s))).
    { destruct (s_calls s) as [|c calls]; [done |].
      intros Hnd. pose proof Hnd as Hnd1. simpl in Hnd1.
      eapply once_earlier in Hnd1; [| apply calls_evolve].
      assert (Hio1 : in_order n (next_with (runner rest (S index)) index act c
                                   (entered index d st))).
      { apply next_with_in_order; try done.
        intros d0 st0 Hr0. apply IH; [lia | done]. }
      destruct calls as [|c' calls]; [done |].
      exfalso. revert Hnd. change (foldl _ _ (c :: c' :: calls)) with
        (foldl (λ st c, next_with (runner rest (S index)) index act c st)
           (next_with (runner rest (S index)) index act c (entered index d st))
           (c' :: calls)).
      apply second_call_shows.
      eapply elem_of_prefix; [| apply continued_ids_prefix, next_with_log].
      rewrite continued_ids_continued, elem_of_app, list_elem_of_singleton. auto. }
    destruct (s_completion s); [done |].
    unfold reject. rewrite settle_log. intros Hnd.
    by apply in_order_settle, Hfold.
Qed.

Lemma fire_in_order ts ev st :
  in_order (length ts) st →
  NoDup (continued_ids (log (fire ts ev st))) →
  in_order (length ts) (fire ts ev st).
Proof.
  intros Hio. unfold fire.
  destruct (acts st !! ev.1) as [act|] eqn:Ha; [| done].
  unfold next. intros Hnd.
  pose proof Hnd as Hnd1.
  eapply NoDup_prefix in Hnd1; [| apply continued_ids_prefix, next_with_log].
  rewrite continued_ids_continued in Hnd1.
  apply NoDup_app in Hnd1 as (_ & Hdisj & _).
  assert (Hnot : ev.1 ∉ continued_ids (log st)).
  { intros Hin. apply (Hdisj _ Hin). by apply list_elem_of_singleton. }
  pose proof (lookup_lt_Some _ _ _ Ha) as Hlt.
  assert (Hlen : length (acts st) = S ev.1).
  { destruct (decide (S ev.1 < length (acts st))) as [Hp|Hp]; [| lia].
    by apply (io_past _ _ Hio) in Hp. }
  assert (Hidx : a_index act = ev.1).
  { pose proof (io_acts _ _ Hio) as Hm.
    assert (H : map a_index (acts st) !! ev.1 = Some (a_index act))
      by by rewrite list_lookup_fmap, Ha.
    rewrite Hm, lookup_seq in H. destruct H as [H _]. simpl in H. done. }
  revert Hnd. rewrite Hidx. intros Hnd.
  apply next_with_in_order; try done.
  intros d st0 Hr0. apply runner_in_order; [| done].
  rewrite length_drop. pose proof (rd_bound _ _ _ Hr0). lia.
Qed.

Lemma run_in_order ts evs : ∀ st,
  in_order (length ts) st →
  NoDup (continued_ids (log (run ts evs st))) →
  in_order (length ts) (run ts evs st).
Proof.
  induction evs as [|ev evs IH]; intros st Hio Hnd; simpl; [done |].
  apply IH; [| done]. apply fire_in_order; [done |].
  eapply once_earlier; [apply (run_evolves ts evs) | exact Hnd].
Qed.

Lemma execute_in_order ts x evs :
  let st := run ts evs (execute {| tasks := ts |} x).2 in
  NoDup (continued_ids (log st)) → in_order (length ts) st.
Proof.
  simpl. unfold execute. simpl.
  pose proof (runner_in_order ts 0 x (set_heap [Pending] initial) (length ts)
                eq_refl) as H.
  destruct (runner ts 0 x _) as [r st1]. simpl in *.
  intros Hnd. apply run_in_order; [| done].
  apply in_order_settle, H.
  - split; simpl; try done; [| lia]. intros a. split; [by intros ?%elem_of_nil | lia].
  - eapply once_earlier in Hnd; [| apply run_evolves].
    unfold resolve in Hnd. by rewrite settle_log in Hnd.
Qed.

(** ** A pipeline of tasks that continue at once *)

Lemma runner_keeps rest index d st p :
  p < length (heap st) →
  heap (runner rest index d st).2 !! p = heap st !! p.
Proof.
  intros Hp. destruct (lookup_lt_is_Some_2 (heap st) p Hp) as [y Hy].
  rewrite Hy. eapply ev_heap; [apply runner_evolves; reflexivity | exact Hy |].
  by left.
Qed.

Lemma runner_grows rest index d st :
  length (heap st) < length (heap (runner rest index d st).2).
Proof.
  destruct (runner_resolved rest index d st) as (y & Hy & _).
  by eapply lookup_lt_Some.
Qed.



(** The payload [1] through a task that replaces it with [2] and a task
    that multiplies it by ten. *)
Example replaces_then_multiplies :
  let ts := [transforms (λ _, VNumber 2);
             transforms (λ d, match d with
                              | VNumber n => VNumber (n * 10)
                              | _ => VUndefined
                              end)] in
  let r := execute {| tasks := ts |} (VNumber 1) in
  outcome r.2 r.1 = Fulfilled (VNumber 20)
  ∧ log r.2 = [Invoked 0 (VNumber 1); Continued 0 VNull (VNumber 2);
               Invoked 1 (VNumber 2); Continued 1 VNull (VNumber 20)].
Proof. split; reflexivity. Qed.

Lemma transforms_continues_with f : continues_with f (transforms f).
Proof. intros a d. by exists VNull, (RetValue VUndefined). Qed.

(** ** The fuel of [terminus] is enough *)

Lemma chase_total h :
  (∀ p q, h !! p = Some (Follows q) → p < q < length h) →
  ∀ fuel p q, length h ≤ fuel + p → h !! chase fuel h p ≠ Some (Follows q).
Proof.
  intros Hh. induction fuel as [|fuel IH]; intros p q Hlen; simpl.
  - rewrite lookup_ge_None_2 by lia. done.
  - destruct (h !! p) as [[| | |r]|] eqn:Hp; try (rewrite Hp; done).
    apply IH. apply Hh in Hp. lia.
Qed.

Lemma well_linked_alloc x st :
  (∀ q, x ≠ Follows q) → well_linked st →
  well_linked (set_heap (heap st ++ [x]) st).
Proof.
  intros Hx [Hl Ha]. split; simpl.
  - intros p q Hp. rewrite length_app. simpl.
    destruct (decide (p < length (heap st))) as [Hlt|Hge].
    + rewrite lookup_app_l in Hp by done. apply Hl in Hp. lia.
    + rewrite lookup_app_r in Hp by lia.
      destruct (p - length (heap st)) as [|k]; simpl in Hp.
      * injection Hp as ->. by destruct (Hx q).
      * by rewrite lookup_nil in Hp.
  - intros a act Hact. rewrite length_app. apply Ha in Hact. lia.
Qed.

Lemma settle_not_pending p x st :
  heap st !! p ≠ Some Pending → settle p x st = st.
Proof.
  intros Hp. unfold settle. by destruct (heap st !! p) as [[| | |]|].
Qed.

Lemma well_linked_settle p x st :
  (∀ q, x = Follows q → p < q < length (heap st)) →
  well_linked st → well_linked (settle p x st).
Proof.
  intros Hx [Hl Ha]. split.
  - intros p' q. rewrite settle_length.
    destruct (decide (p = p')) as [<-|Hne].
    + assert (heap st !! p = Some Pending ∨ heap st !! p ≠ Some Pending)
        as [Hp|Hp] by (destruct (heap st !! p) as [[| | |]|]; auto).
      * rewrite settle_lookup_eq by done. intros [= ->]. by apply Hx.
      * rewrite settle_not_pending by done. apply Hl.
    + rewrite settle_lookup_ne by done. apply Hl.
  - intros a act. rewrite settle_acts, settle_length. apply Ha.
Qed.

Lemma well_linked_set_currentIndex i st :
  well_linked st → well_linked (set_currentIndex i st).
Proof. intros [Hl Ha]. by split. Qed.

Lemma well_linked_record e st : well_linked st → well_linked (record e st).
Proof. intros [Hl Ha]. by split. Qed.

Lemma well_linked_next_with run a act c st :
  (∀ d st0, well_linked st0 →
     well_linked (run d st0).2 ∧ (run d st0).1 = length (heap st0)
     ∧ length (heap st0) < length (heap (run d st0).2)) →
  a_promise act < length (heap st) →
  well_linked st → well_linked (next_with run a act c st)
  ∧ length (heap st) ≤ length (heap (next_with run a act c st)).
Proof.
  intros Hrun Hp Hwl. unfold next_with.
  set (st1 := record _ st).
  assert (Hwl1 : well_linked st1) by by apply well_linked_record.
  destruct (truthy (c_err c)).
  - unfold reject. rewrite settle_length. split; [| done].
    by apply well_linked_settle.
  - destruct (Hrun (if not_undefined (c_nextData c) then c_nextData c
                    else a_data act) st1 Hwl1) as (Hwl2 & Hr & Hlen).
    destruct (run _ st1) as [r st2]. simpl in *. subst r.
    unfold resolve. rewrite settle_length. split; [| lia].
    apply well_linked_settle; [| done]. intros q [= <-]. lia.
Qed.

Lemma runner_well_linked rest : ∀ index d st,
  well_linked st → well_linked (runner rest index d st).2.
Proof.
  induction rest as [|t rest IH]; intros index d st Hwl.
  - destruct (decide (currentIndex st = Z.of_nat index)) as [Hc|Hc].
    + rewrite runner_guard by done. by apply well_linked_alloc.
    + rewrite runner_end by done.
      by apply well_linked_set_currentIndex, well_linked_alloc.
  - destruct (decide (currentIndex st = Z.of_nat index)) as [Hc|Hc].
    { rewrite runner_guard by done. by apply well_linked_alloc. }
    rewrite runner_task by done. cbn [snd].
    set (act := {| a_index := index; a_data := d; a_promise := S (length (heap st)) |}).
    set (next := next_with (runner rest (S index)) (length (acts st)) act).
    assert (Hent : well_linked (entered index d st)).
    { destruct Hwl as [Hl Ha]. split; simpl.
      - intros p q Hp. rewrite length_app. simpl.
        destruct (decide (p < length (heap st))) as [Hlt|Hge].
        + rewrite lookup_app_l in Hp by done. apply Hl in Hp. lia.
        + rewrite lookup_app_r in Hp by lia.
          destruct (p - length (heap st)) as [|[|k]]; simpl in Hp; try done.
      - intros a act0. rewrite length_app. simpl.
        destruct (decide (a < length (acts st))) as [Hlt|Hge].
        + rewrite lookup_app_l by done. intros H%Ha. lia.
        + rewrite lookup_app_r by lia.
          destruct (a - length (acts st)) as [|k]; simpl; [| done].
          intros [= <-]. simpl. lia. }
    assert (Hfold : ∀ calls st0,
              well_linked st0 → S (S (length (heap st))) ≤ length (heap st0) →
              well_linked (foldl (λ st c, next c st) st0 calls)
              ∧ S (S (length (heap st)))
                ≤ length (heap (foldl (λ st c, next c st) st0 calls))).
    { induction calls as [|c calls IHc]; intros st0 Hwl0 Hlen0; simpl; [done |].
      destruct (well_linked_next_with (runner rest (S index)) (length (acts st))
                  act c st0) as [Hwl1 Hlen1]; [| unfold act; simpl; lia | done |].
      - intros d0 st1 Hwl1. split; [by apply IH |].
        split; [apply runner_fst | apply runner_grows].
      - apply IHc; [done | unfold next; lia]. }
    destruct (Hfold (s_calls (try_block t (length (acts st)) d))
                (entered index d st) Hent) as [Hwl1 Hlen1].
    { simpl. rewrite length_app. simpl. lia. }
    unfold run_script, resolve.
    destruct (s_completion _).
    + apply well_linked_settle; [| done]. intros q [= <-]. lia.
    + apply well_linked_settle.
      * intros q [= <-]. unfold reject. rewrite settle_length. lia.
      * by apply well_linked_settle.
Qed.

Lemma run_well_linked ts evs : ∀ st, well_linked st → well_linked (run ts evs st).
Proof.
  induction evs as [|ev evs IH]; intros st Hwl; simpl; [done |].
  apply IH. unfold fire. destruct (acts st !! ev.1) as [act|] eqn:Ha; [| done].
  apply well_linked_next_with; [| by eapply wl_acts | done].
  intros d st0 Hwl0. split; [by apply runner_well_linked |].
  split; [apply runner_fst | apply runner_grows].
Qed.

Lemma execute_well_linked ts x evs :
  well_linked (run ts evs (execute {| tasks := ts |} x).2).
Proof.
  apply run_well_linked. unfold execute. simpl.
  pose proof (runner_well_linked ts 0 x (set_heap [Pending] initial)) as H.
  pose proof (runner_fst ts 0 x (set_heap [Pending] initial)) as Hfst.
  pose proof (runner_grows ts 0 x (set_heap [Pending] initial)) as Hgrow.
  destruct (runner ts 0 x _) as [r st1]. simpl in *. subst r.
  apply well_linked_settle; [intros q' [= <-]; lia |].
  apply H. split; simpl.
  - intros [|p'] q' Hp; simpl in Hp; [done | by rewrite lookup_nil in Hp].
  - intros a act Ha. by rewrite lookup_nil in Ha.
Qed.

(** In every state of an execution the chain of adoptions from any
    promise ends within the fuel: the outcome is pending, fulfilled or
    rejected. *)
Lemma outcome_total ts x evs p q :
  outcome (run ts evs (execute {| tasks := ts |} x).2) p ≠ Follows q.
Proof.
  pose proof (execute_well_linked ts x evs) as Hwl.
  unfold outcome, terminus. intros Hq.
  destruct (heap _ !! chase _ _ _) as [y|] eqn:Hy; simpl in Hq; [| done].
  subst y. revert Hy. apply chase_total; [apply Hwl | lia].
Qed.

(** ** What the result of [execute] waits on *)

Lemma awaits_mono h h' p q :
  (∀ r y, h !! r = Some y → y ≠ Pending → h' !! r = Some y) →
  awaits h p q → awaits h' p q.
Proof.
  intros Hh. induction 1 as [|p p1 q Hl _ IH]; [apply rtc_refl |].
  eapply rtc_l; [| exact IH]. unfold link in *. by apply Hh.
Qed.



Lemma awaits_terminus st p q :
  well_linked st → awaits (heap st) p q →
  (∀ r, heap st !! q ≠ Some (Follows r)) → terminus st p = q.
Proof.
  intros [Hl _] Hpq Hq. unfold terminus.
  assert (H : ∀ fuel, length (heap st) ≤ fuel + p → chase fuel (heap st) p = q);
    [| apply H; lia].
  induction Hpq as [p|p p1 q Hlink _ IH]; intros fuel Hfuel.
  - destruct fuel; simpl; [done |].
    destruct (heap st !! p) as [[| | |r]|] eqn:Hp; try done. by destruct (Hq r).
  - unfold link in Hlink. pose proof (Hl _ _ Hlink) as Hlt.
    destruct fuel as [|fuel]; [lia |]. simpl. rewrite Hlink.
    apply IH; [done | lia].
Qed.

Lemma awaits_outcome st p q x :
  well_linked st → awaits (heap st) p q → heap st !! q = Some x →
  (∀ r, x ≠ Follows r) → outcome st p = x.
Proof.
  intros Hwl Hpq Hq Hx. unfold outcome.
  erewrite awaits_terminus; [by rewrite Hq | done | done |].
  intros r Hr. rewrite Hq in Hr. injection Hr as ->. by destruct (Hx r).
Qed.












(** ** One continuation call in an execution *)



Lemma execute_fst this x : (execute this x).1 = 0.
Proof. unfold execute. simpl. by destruct (runner _ _ _ _). Qed.


Lemma run_app ts evs evs' st :
  run ts (evs ++ evs') st = run ts evs' (run ts evs st).
Proof. unfold run. by rewrite foldl_app. Qed.




(** * The claims *)

(** C1, on the code. A second call of a continuation does not make the
    execution fail. With the single task
    [(data, next) => { next(); next(); }] the guard of [runner] fires on
    the second call, but the rejected promise it produces is handed to a
    [resolve] that has already been used: [execute(x)] is fulfilled with
    [x]. With a second task that continues at once the guard does not
    even fire, and the second call invokes that task a second time. *)
Theorem double_continuation_not_rejected (x : value) :
  let r := execute {| tasks := [continues_twice] |} x in
  let r' := execute {| tasks := [continues_twice; continues_once] |} x in
  outcome r.2 r.1 = Fulfilled x
  ∧ log r.2 = [Invoked 0 x; Continued 0 VUndefined VUndefined;
               Continued 0 VUndefined VUndefined]
  ∧ heap r.2 !! 4 = Some (Rejected protocol_error)
  ∧ outcome r'.2 r'.1 = Fulfilled x
  ∧ log r'.2 = [Invoked 0 x; Continued 0 VUndefined VUndefined;
                Invoked 1 x; Continued 1 VUndefined VUndefined;
                Continued 0 VUndefined VUndefined;
                Invoked 1 x; Continued 2 VUndefined VUndefined].
Proof. repeat split. Qed.

(** C2, as the code has it. [add(v)] succeeds, appending [v] to the
    registry and returning the pipeline, exactly when [v] is a function
    (a class is one) or an object other than [null], whether or not the
    object has a [handle] method; every other [v], such as the string
    ["not a task"], makes [add] throw a [TypeError] at once, the registry
    unchanged. *)
Theorem add_accepts_functions_and_objects (t : task) (this : pipeline) :
  (accepted t → add t this = Returns {| tasks := tasks this ++ [t] |})
  ∧ (¬ accepted t → add t this = Throws registration_error)
  ∧ add (TValue (VString "not a task")) this = Throws registration_error
  ∧ add (TObject None) this = Returns {| tasks := tasks this ++ [TObject None] |}.
Proof.
  unfold accepted.
  split; [| split; [| split; reflexivity]].
  - intros [Hf | [Ho Hn]].
    + destruct t as [v|f|h]; [destruct v; discriminate | done | discriminate].
    + destruct t as [v|f|h]; [destruct v; try discriminate; done | done | done].
  - intros Hn. destruct t as [v|f|h]; [destruct v | |]; try reflexivity;
      exfalso; apply Hn; auto; right; (split; [reflexivity | discriminate]).
Qed.

Lemma add_accepts_witness :
  add continues_once new_pipeline = Returns {| tasks := [continues_once] |}
  ∧ add (TValue (VNumber 42)) new_pipeline = Throws registration_error.
Proof.
  split.
  - destruct (add_accepts_functions_and_objects continues_once new_pipeline)
      as (Hyes & _).
    apply Hyes. left. reflexivity.
  - destruct (add_accepts_functions_and_objects (TValue (VNumber 42)) new_pipeline)
      as (_ & Hno & _).
    apply Hno. intros [H | [H _]]; discriminate.
Defined.

(** C2 as stated fails: an object without a [handle] method is neither
    callable nor an object exposing a handle capability, and [add]
    registers it. *)
Lemma handleless_object_registers :
  ¬ (∀ t this,
       (∃ this', add t this = Returns this')
       ↔ (typeof t = "function" ∨ is_Some (handle_of t))).
Proof.
  intros H. destruct (H (TObject None) new_pipeline) as [H1 _].
  destruct H1 as [Hf | [h Hh]]; [by eexists | discriminate | discriminate].
Qed.






(** C5, as the code has it. Throwing a truthy [e] while being invoked and
    calling the continuation with [e] are the same failure. Take any
    pipeline and let any of its tasks, in any of its activations, call
    the continuation with the truthy value it would have thrown: then
    [execute] returns the same promise, and after any later continuation
    calls the two executions have the same cursor, the same promises and
    the same activations, so the result of [execute] is the same. A task
    that does nothing else makes its step reject with exactly [e] either
    way, and as the first task it makes [execute] reject with [e]. *)
Theorem throw_as_failure :
  (∀ ts ts' x evs,
     Forall2 (λ t t', ∀ a d,
                try_block t' a d = try_block t a d
                ∨ signals_instead (try_block t a d) (try_block t' a d)) ts ts' →
     let r := execute {| tasks := ts |} x in
     let r' := execute {| tasks := ts' |} x in
     r.1 = r'.1
     ∧ outcome (run ts evs r.2) r.1 = outcome (run ts' evs r'.2) r'.1
     ∧ heap (run ts evs r.2) = heap (run ts' evs r'.2)
     ∧ acts (run ts evs r.2) = acts (run ts' evs r'.2)
     ∧ currentIndex (run ts evs r.2) = currentIndex (run ts' evs r'.2))
  ∧ (∀ e rest x, truthy e = true →
       let r := execute {| tasks := throws e :: rest |} x in
       let r' := execute {| tasks := signals e :: rest |} x in
       outcome r.2 r.1 = Rejected e ∧ outcome r'.2 r'.1 = Rejected e)
  ∧ (∀ e rest index d st, truthy e = true →
       currentIndex st ≠ Z.of_nat index →
       let r := runner (throws e :: rest) index d st in
       let r' := runner (signals e :: rest) index d st in
       outcome r.2 r.1 = Rejected e ∧ outcome r'.2 r'.1 = Rejected e
       ∧ heap r.2 = heap r'.2).
Proof.
  split; [| split].
  - intros ts ts' x evs Hts r r'.
    destruct (execute_sim (λ _ _, True) (λ _ _ _ _, I) ts ts' x evs I) as [H1 H2].
    { eapply Forall2_impl; [exact Hts |]. intros t t' Ht a d.
      destruct (Ht a d) as [Heq | Hsig].
      - rewrite Heq. apply script_sim_refl. auto.
      - by apply signals_instead_sim. }
    fold r r' in H1, H2. split; [done |]. split.
    + rewrite H1. by eapply sim_outcome.
    + destruct H2 as (Hc & Hh & Ha & _). done.
  - intros e rest x He. split; [reflexivity |].
    unfold execute. simpl. unfold next_with, run_script. simpl. rewrite He.
    reflexivity.
  - intros e rest index d st He Hc. rewrite !runner_task by done.
    cbn [fst snd]. unfold run_script. simpl. unfold next_with. simpl.
    rewrite He.
    assert (Hr : ∀ l, heap (set_heap (heap st ++ [Pending; Pending]) l)
                 !! length (heap st) = Some Pending).
    { intros l. simpl. rewrite lookup_app_r by lia. by rewrite Nat.sub_diag. }
    assert (Hp : ∀ l, heap (set_heap (heap st ++ [Pending; Pending]) l)
                 !! S (length (heap st)) = Some Pending).
    { intros l. simpl. rewrite lookup_app_r by lia.
      by replace (S (length (heap st)) - length (heap st)) with 1 by lia. }
    split; [| split].
    + apply step_rejected; [lia | apply (Hr st) | apply (Hp st)].
    + apply step_rejected; [lia | apply (Hr st) | apply (Hp st)].
    + unfold resolve, reject. by do 2 apply settle_heap.
Qed.

Lemma throw_as_failure_witness :
  let ts := [continues_once; throws bad; continues_once] in
  let ts' := [continues_once; signals bad; continues_once] in
  let r := execute {| tasks := ts |} VNull in
  let r' := execute {| tasks := ts' |} VNull in
  truthy bad = true
  ∧ outcome (run ts [] r.2) r.1 = outcome (run ts' [] r'.2) r'.1
  ∧ outcome (execute {| tasks := throws bad :: [] |} VNull).2
      (execute {| tasks := throws bad :: [] |} VNull).1 = Rejected bad.
Proof.
  intros ts ts' r r'.
  assert (H : Forall2 (λ t t', ∀ a d,
             try_block t' a d = try_block t a d
             ∨ signals_instead (try_block t a d) (try_block t' a d)) ts ts').
  { constructor; [intros a d; by left |].
    constructor; [| constructor; [intros a d; by left | constructor]].
    intros a d. right. exists bad, VUndefined, (RetValue VUndefined). done. }
  destruct throw_as_failure as (Hsame & Hhead & _).
  destruct (Hsame ts ts' VNull [] H) as (_ & Hout & _).
  destruct (Hhead bad [] VNull eq_refl) as [Hthrow _].
  split; [reflexivity |]. split; [exact Hout | exact Hthrow].
Defined.

(** C5 as stated fails for a falsy value: a task that throws [null]
    makes [execute] reject with [null]; a task that calls the
    continuation with [null] continues, and [execute] is fulfilled. *)
Lemma falsy_throw_differs :
  let r := execute {| tasks := [throws VNull] |} (VNumber 7) in
  let r' := execute {| tasks := [signals VNull] |} (VNumber 7) in
  outcome r.2 r.1 = Rejected VNull
  ∧ outcome r'.2 r'.1 = Fulfilled (VNumber 7)
  ∧ outcome r.2 r.1 ≠ outcome r'.2 r'.1.
Proof. repeat split. discriminate. Qed.




(** C8. Strictly sequential execution. In every execution, whatever the
    tasks do and whenever they do it, a task other than the first is
    invoked only from a continuation call without error made by an
    activation of the task just before it in the registry, and that call
    is the entry of the log right before the invocation. When no
    continuation is called twice, and so whenever the tasks all continue
    as the protocol asks, the tasks activated so far are the tasks
    0, 1, 2, ... of the registry, each once, in that order. *)
Theorem sequential_order ts x evs :
  let st := run ts evs (execute {| tasks := ts |} x).2 in
  (∀ k i d, log st !! k = Some (Invoked (S i) d) →
     ∃ k' a act e nd,
       k = S k' ∧ log st !! k' = Some (Continued a e nd)
       ∧ acts st !! a = Some act ∧ a_index act = i ∧ truthy e = false)
  ∧ (NoDup (continued_ids (log st)) →
       invoked_indices (log st) = seq 0 (length (acts st))
       ∧ map a_index (acts st) = seq 0 (length (acts st))
       ∧ length (acts st) ≤ length ts).
Proof.
  intros st. split.
  - intros k i d Hk.
    destruct (execute_ordered ts x evs k i d Hk)
      as (k' & -> & a & act & e & nd & H1 & H2 & H3 & H4).
    exists k', a, act, e, nd. done.
  - intros Hnd. destruct (execute_in_order ts x evs Hnd) as [H1 H2 _ _ _ H6].
    done.
Qed.

Lemma sequential_order_witness :
  let ts := [continues_once; continues_later; continues_once] in
  let st := run ts [(1, Call VUndefined (VString "replaced"))]
              (execute {| tasks := ts |} VNull).2 in
  NoDup (continued_ids (log st))
  ∧ invoked_indices (log st) = [0; 1; 2]
  ∧ log st !! 4 = Some (Invoked 2 (VString "replaced")).
Proof.
  intros ts st.
  assert (Hnd : NoDup (continued_ids (log st))).
  { change (NoDup [0; 1; 2]). apply (bool_decide_unpack _). by compute. }
  destruct (sequential_order ts VNull [(1, Call VUndefined (VString "replaced"))])
    as [_ Hseq].
  split; [exact Hnd |]. split; [| reflexivity].
  destruct (Hseq Hnd) as (Hinv & _). exact Hinv.
Defined.

(** C9. Aliases: [use(task)] is [add(task)] (the same check, the same
    registry afterwards, the same returned pipeline) and
    [exec(initialData)] is [execute(initialData)] (the same promise in the
    same state, hence the same eventual outcome), for every pipeline and
    every argument. *)
Theorem aliases_agree :
  (∀ t this, use t this = add t this)
  ∧ (∀ this x, exec this x = execute this x)
  ∧ (∀ this x evs,
       outcome (run (tasks this) evs (exec this x).2) (exec this x).1
       = outcome (run (tasks this) evs (execute this x).2) (execute this x).1).
Proof. repeat split. Qed.

(** C10. What a task returns is ignored: two pipelines whose tasks make
    the same continuation calls and throw the same values, and differ
    only in what their invocations return (a value, a promise, a rejected
    promise), go through the same states, whatever continuation calls
    come later. In particular a task that returns a promise rejected with
    [e] without calling its continuation leaves the result of [execute]
    pending: the rejection reaches neither the [catch] of [runner] nor
    the promise of the step. *)
Theorem returned_promise_ignored :
  (∀ ts ts' x evs,
     Forall2 (λ t t', ∀ a d, same_signals (try_block t a d) (try_block t' a d))
       ts ts' →
     (execute {| tasks := ts |} x).1 = (execute {| tasks := ts' |} x).1
     ∧ run ts evs (execute {| tasks := ts |} x).2
       = run ts' evs (execute {| tasks := ts' |} x).2)
  ∧ (∀ e rest x,
       let r := execute {| tasks := async_throws e :: rest |} x in
       outcome r.2 r.1 = Pending
       ∧ heap r.2 = [Follows 1; Follows 2; Pending]
       ∧ log r.2 = [Invoked 0 x]
       ∧ r.2 = (execute {| tasks := continues_later :: rest |} x).2).
Proof.
  split.
  - intros ts ts' x evs Hts.
    destruct (execute_sim eq (λ l l' e H, f_equal (λ k, k ++ [e]) H)
                ts ts' x evs eq_refl) as [H1 H2].
    { eapply Forall2_impl; [exact Hts |]. intros t t' Ht a d.
      apply same_signals_sim; [by intros l l' e0 -> | apply Ht]. }
    split; [done |]. by apply sim_eq.
  - intros e rest x. repeat split.
Qed.

Lemma returned_promise_ignored_witness :
  let ts := [async_throws bad; continues_once] in
  let ts' := [continues_later; continues_once] in
  run ts [(0, continue_)] (execute {| tasks := ts |} VNull).2
  = run ts' [(0, continue_)] (execute {| tasks := ts' |} VNull).2
  ∧ outcome (execute {| tasks := ts |} VNull).2 0 = Pending.
Proof.
  intros ts ts'.
  destruct returned_promise_ignored as [Hsame Hpending].
  split.
  - apply (Hsame ts ts' VNull [(0, continue_)]).
    constructor; [intros a d; by split |].
    constructor; [intros a d; by split | constructor].
  - apply (Hpending bad [continues_once] VNull).
Defined.

(** * Further properties of the engine *)

(** ** Registering several tasks *)

Lemma add_accepted t this :
  accepted t → add t this = Returns {| tasks := tasks this ++ [t] |}.
Proof.
  intros [Hf | [Ho Hn]].
  - destruct t as [v|f|h]; [destruct v; discriminate | done | discriminate].
  - destruct t as [v|f|h]; [destruct v; try discriminate; done | done | done].
Qed.

Lemma add_refused t this : ¬ accepted t → add t this = Throws registration_error.
Proof.
  intros Hn. destruct t as [v|f|h]; [destruct v | |]; try reflexivity;
    exfalso; apply Hn; unfold accepted; auto; right; (split; [reflexivity | discriminate]).
Qed.

Lemma add_all_throws ts e :
  foldl (λ r t, match r with Returns p => add t p | Throws e => Throws e end)
        (Throws e) ts = Throws e.
Proof. by induction ts. Qed.

(** Registering accepted tasks appends them in the order of the calls. *)
Lemma add_all_accepted ts : ∀ this,
  Forall accepted ts → add_all ts this = Returns {| tasks := tasks this ++ ts |}.
Proof.
  unfold add_all. induction ts as [|t ts IH]; intros this Hts; simpl.
  - destruct this. simpl. by rewrite app_nil_r.
  - inversion Hts as [|? ? Ht Hts']; subst. rewrite add_accepted by done.
    rewrite IH by done. simpl. by rewrite <- app_assoc.
Qed.

(** A sequence of registrations that returns has registered every task. *)
Lemma add_all_returns ts : ∀ this this',
  add_all ts this = Returns this' →
  Forall accepted ts ∧ tasks this' = tasks this ++ ts.
Proof.
  unfold add_all. induction ts as [|t ts IH]; intros this this'; simpl.
  - intros [= <-]. split; [done | by rewrite app_nil_r].
  - destruct (add t this) as [e|p] eqn:Hadd.
    + by rewrite add_all_throws.
    + intros H. destruct (IH _ _ H) as [Hts Htasks].
      assert (Ht : accepted t).
      { unfold add in Hadd. unfold accepted.
        destruct t as [v|f|h]; [destruct v; try discriminate | by left |];
          right; (split; [reflexivity | discriminate]). }
      rewrite (add_accepted _ _ Ht) in Hadd. injection Hadd as <-.
      split; [by constructor |]. rewrite Htasks. simpl. by rewrite <- app_assoc.
Qed.

(** X10. Registration keeps order and duplicates. A sequence of [add]
    calls with accepted tasks returns the pipeline with exactly those
    tasks appended to the registry, in the order of the calls, nothing
    dropped or merged; the first value that [add] refuses makes the
    sequence throw the [TypeError] of [add]; and a sequence that returns
    has appended every one of its tasks, each of them accepted. *)
Theorem registration_keeps_order (ts : list task) (this : pipeline) :
  (Forall accepted ts →
     add_all ts this = Returns {| tasks := tasks this ++ ts |})
  ∧ (∀ pre t post, ts = pre ++ t :: post → Forall accepted pre → ¬ accepted t →
       add_all ts this = Throws registration_error)
  ∧ (∀ this', add_all ts this = Returns this' →
       Forall accepted ts ∧ tasks this' = tasks this ++ ts).
Proof.
  split; [apply add_all_accepted |]. split.
  - intros pre t post -> Hpre Ht. unfold add_all. rewrite foldl_app.
    fold (add_all pre this). rewrite add_all_accepted by done. simpl.
    rewrite add_refused by done. apply add_all_throws.
  - intros this'. apply add_all_returns.
Qed.

Lemma registration_keeps_order_witness :
  Forall accepted [continues_once; TObject None; continues_once]
  ∧ add_all [continues_once; TObject None; continues_once] new_pipeline
    = Returns {| tasks := tasks new_pipeline
                          ++ [continues_once; TObject None; continues_once] |}
  ∧ ¬ accepted (TValue VNull)
  ∧ add_all [continues_once; TValue VNull; continues_once] new_pipeline
    = Throws registration_error.
Proof.
  assert (Hf : accepted continues_once) by (left; reflexivity).
  assert (Ho : accepted (TObject None))
    by (right; split; [reflexivity | discriminate]).
  assert (Hn : ¬ accepted (TValue VNull))
    by (intros [H | [_ H]]; [discriminate | by apply H]).
  assert (Hall : Forall accepted [continues_once; TObject None; continues_once]).
  { constructor; [exact Hf |]. constructor; [exact Ho |].
    constructor; [exact Hf | constructor]. }
  destruct (registration_keeps_order
              [continues_once; TObject None; continues_once] new_pipeline)
    as (Hyes & _).
  destruct (registration_keeps_order
              [continues_once; TValue VNull; continues_once] new_pipeline)
    as (_ & Hno & _).
  split; [exact Hall |]. split; [exact (Hyes Hall) |]. split; [exact Hn |].
  apply (Hno [continues_once] (TValue VNull) [continues_once] eq_refl);
    [constructor; [exact Hf | constructor] | exact Hn].
Defined.

(** X11. The check of [add] is what makes the dispatch of [runner] total.
    Every task of a pipeline built from the empty one by [add] takes one
    of the four paths of the [try] block: [new] for a function that
    passes the class test, a plain call for any other function,
    [handle(data, next)] for an object that has it, the [TypeError] of
    the engine for an object that has not. The two other ways through
    the block are closed to it: reading [handle] of [null], which throws,
    and falling through both tests, as a string would, which calls
    nothing and rejects nothing. *)
Theorem registered_tasks_are_dispatched ts p :
  add_all ts new_pipeline = Returns p →
  tasks p = ts
  ∧ (∀ t a d, t ∈ tasks p →
       try_block t a d
       = match t with
         | TFunction f => if class_regex_test (fn_source f)
                          then fn_construct f a d else fn_call f a d
         | _ => match handle_of t with
                | Some h => fn_call h a d
                | None => Script [] (Abrupt handle_error)
                end
         end)
  ∧ (∀ a d, try_block (TValue VNull) a d = Script [] (Abrupt null_error))
  ∧ (∀ s a d, try_block (TValue (VString s)) a d
               = Script [] (Normal (RetValue VUndefined))).
Proof.
  intros Hadd. destruct (add_all_returns _ _ _ Hadd) as [Hts Htasks].
  simpl in Htasks. split; [done |]. split; [| done].
  intros t a d Ht. rewrite Htasks in Ht.
  rewrite Forall_forall in Hts. destruct (Hts t Ht) as [Hf | [Ho Hn]].
  - destruct t as [v|f|h]; [destruct v; discriminate | done | discriminate].
  - destruct t as [v|f|h]; [destruct v; try discriminate; done | discriminate | done].
Qed.

Lemma registered_tasks_are_dispatched_witness :
  add_all [continues_once; TObject None] new_pipeline
  = Returns {| tasks := [continues_once; TObject None] |}
  ∧ try_block (TObject None) 1 VNull = Script [] (Abrupt handle_error).
Proof.
  assert (H : add_all [continues_once; TObject None] new_pipeline
              = Returns {| tasks := [continues_once; TObject None] |})
    by reflexivity.
  split; [exact H |].
  destruct (registered_tasks_are_dispatched _ _ H) as (_ & Hd & _).
  apply (Hd (TObject None) 1 VNull). simpl. apply elem_of_cons. right. apply elem_of_cons. by left.
Defined.

(** ** The class test, by the text *)

(** X12. The class test reads the first six code units of the source
    text: it succeeds exactly when the text is [class] followed by a
    white-space character of [\s]. A function with such a text is
    invoked with [new]; a function whose text has no such beginning is
    called plainly. *)
Theorem class_test_reads_prefix (f : function_) (a : nat) (d : value) :
  (class_regex_test (fn_source f) = true
   ↔ ∃ c rest, fn_source f = ascii_text "class" ++ c :: rest
               ∧ regex_space c = true)
  ∧ ((∃ c rest, fn_source f = ascii_text "class" ++ c :: rest
                ∧ regex_space c = true) →
     try_block (TFunction f) a d = fn_construct f a d)
  ∧ ((∀ c rest, fn_source f = ascii_text "class" ++ c :: rest →
                regex_space c = false) →
     try_block (TFunction f) a d = fn_call f a d).
Proof.
  split; [apply class_regex_test_spec |]. split.
  - intros H. apply class_regex_test_spec in H.
    unfold try_block. simpl. by rewrite H.
  - intros H. unfold try_block. simpl.
    destruct (class_regex_test (fn_source f)) eqn:Hc; [| done].
    apply class_regex_test_spec in Hc as (c & rest & Hs & Hsp).
    rewrite (H c rest Hs) in Hsp. discriminate.
Qed.

Lemma class_test_reads_prefix_witness :
  let f := {| fn_source := ascii_text "class Task { }";
              fn_call := λ _ _, Script [] (Abrupt class_call_error);
              fn_construct := λ _ _, Script [continue_] done_ |} in
  let g := {| fn_source := ascii_text "function Task(data, next) { }";
              fn_call := λ _ _, Script [continue_] done_;
              fn_construct := λ _ _, Script [] done_ |} in
  try_block (TFunction f) 0 VNull = Script [continue_] done_
  ∧ try_block (TFunction g) 0 VNull = Script [continue_] done_.
Proof.
  intros f g.
  destruct (class_test_reads_prefix f 0 VNull) as (_ & Hnew & _).
  destruct (class_test_reads_prefix g 0 VNull) as (_ & _ & Hcall).
  split.
  - apply Hnew. exists 32%N, (ascii_text "Task { }"). split; reflexivity.
  - apply Hcall. intros c rest Hs. discriminate Hs.
Defined.

(** ** Tasks that continue at once, and the first that does not *)

Lemma invocations_invoked l i d :
  invocations (l ++ [Invoked i d]) = invocations l ++ [(i, d)].
Proof. unfold invocations. by rewrite omap_app. Qed.

Lemma invocations_continued l a e nd :
  invocations (l ++ [Continued a e nd]) = invocations l.
Proof. unfold invocations. rewrite omap_app. simpl. by rewrite app_nil_r. Qed.

Lemma execute_unfold ts x :
  execute {| tasks := ts |} x
  = (0, resolve 0 1 (runner ts 0 x (set_heap [Pending] initial)).2).
Proof.
  unfold execute. simpl.
  pose proof (runner_fst ts 0 x (set_heap [Pending] initial)) as Hfst.
  destruct (runner ts 0 x _) as [r st1]. simpl in *. by subst r.
Qed.

Lemma entered_lookup_call index d st :
  heap (entered index d st) !! length (heap st) = Some Pending.
Proof. simpl. rewrite lookup_app_r by lia. by rewrite Nat.sub_diag. Qed.

Lemma entered_lookup_step index d st :
  heap (entered index d st) !! S (length (heap st)) = Some Pending.
Proof.
  simpl. rewrite lookup_app_r by lia.
  by replace (S (length (heap st)) - length (heap st)) with 1 by lia.
Qed.

Lemma entered_length index d st :
  length (heap (entered index d st)) = S (S (length (heap st))).
Proof. simpl. rewrite length_app. simpl. lia. Qed.

(** A run of tasks that continue at once, before any other tasks: the
    promise of the call leads to what the promise of the call on the
    other tasks leads to, and the tasks of the run are invoked once each
    with the payload threaded so far. *)
Lemma runner_prefix fs pre rest (X : value → promise)
    (T : nat → value → list (nat * value)) :
  (∀ index d st, currentIndex st ≠ Z.of_nat index →
     let st' := (runner rest index d st).2 in
     (∃ q, length (heap st) ≤ q ∧ awaits (heap st') (length (heap st)) q
           ∧ heap st' !! q = Some (X d))
     ∧ invocations (log st') = invocations (log st) ++ T index d) →
  Forall2 continues_with fs pre →
  ∀ index d st, currentIndex st ≠ Z.of_nat index →
    let st' := (runner (pre ++ rest) index d st).2 in
    (∃ q, length (heap st) ≤ q ∧ awaits (heap st') (length (heap st)) q
          ∧ heap st' !! q = Some (X (foldl forward d fs)))
    ∧ invocations (log st')
      = invocations (log st) ++ trace index d fs
        ++ T (index + length pre) (foldl forward d fs).
Proof.
  intros Hrest. induction 1 as [|f t fs pre Hf Hfs IH]; intros index d st Hc.
  - simpl. rewrite Nat.add_0_r. by apply Hrest.
  - rewrite <- app_comm_cons. rewrite runner_task by done. cbn [snd].
    destruct (Hf (length (acts st)) d) as (e & r0 & He & ->).
    unfold run_script. simpl. unfold next_with. simpl. rewrite He.
    fold (forward d f).
    set (st1 := record _ (entered index d st)).
    assert (Hc1 : currentIndex st1 ≠ Z.of_nat (S index)) by (simpl; lia).
    destruct (IH (S index) (forward d f) st1 Hc1) as [(q & Hq & Haw & HX) Hlog].
    pose proof (runner_fst (pre ++ rest) (S index) (forward d f) st1) as Hfst.
    pose proof (runner_keeps (pre ++ rest) (S index) (forward d f) st1
                  (length (heap st))) as HR.
    pose proof (runner_keeps (pre ++ rest) (S index) (forward d f) st1
                  (S (length (heap st)))) as HP.
    destruct (runner (pre ++ rest) (S index) (forward d f) st1) as [r st2].
    cbn [fst snd] in Hfst, HR, HP, Haw, HX, Hlog. subst r.
    assert (Hlen1 : length (heap st1) = S (S (length (heap st))))
      by apply entered_length.
    rewrite Hlen1 in *.
    assert (HR2 : heap st2 !! length (heap st) = Some Pending).
    { rewrite HR by lia. apply entered_lookup_call. }
    assert (HP2 : heap st2 !! S (length (heap st)) = Some Pending).
    { rewrite HP by lia. apply entered_lookup_step. }
    unfold resolve.
    set (st3 := settle (S (length (heap st))) _ st2).
    set (st4 := settle (length (heap st)) _ st3).
    assert (HR4 : heap st4 !! length (heap st)
                  = Some (Follows (S (length (heap st))))).
    { apply settle_lookup_eq. unfold st3. by rewrite settle_lookup_ne by lia. }
    assert (HP4 : heap st4 !! S (length (heap st))
                  = Some (Follows (S (S (length (heap st)))))).
    { unfold st4. rewrite settle_lookup_ne by lia. by apply settle_lookup_eq. }
    assert (Hkeep : ∀ p y, heap st2 !! p = Some y → y ≠ Pending →
                           heap st4 !! p = Some y).
    { intros p y Hp Hy.
      assert (p ≠ length (heap st)) by congruence.
      assert (p ≠ S (length (heap st))) by congruence.
      unfold st4, st3. by rewrite !settle_lookup_ne. }
    split.
    + exists q. split; [lia |]. split.
      * eapply rtc_l; [exact HR4 |]. eapply rtc_l; [exact HP4 |].
        by eapply awaits_mono.
      * unfold st4, st3. by rewrite !settle_lookup_ne by lia.
    + unfold st4, st3. rewrite !settle_log, Hlog. simpl.
      rewrite invocations_continued, invocations_invoked.
      rewrite <- !app_assoc. simpl.
      by replace (index + S (length pre)) with (S (index + length pre)) by lia.
Qed.

Lemma execute_prefix fs pre rest (X : value → promise)
    (T : nat → value → list (nat * value)) x :
  (∀ index d st, currentIndex st ≠ Z.of_nat index →
     let st' := (runner rest index d st).2 in
     (∃ q, length (heap st) ≤ q ∧ awaits (heap st') (length (heap st)) q
           ∧ heap st' !! q = Some (X d))
     ∧ invocations (log st') = invocations (log st) ++ T index d) →
  Forall2 continues_with fs pre →
  (∀ p, X (foldl forward x fs) ≠ Follows p) →
  let r := execute {| tasks := pre ++ rest |} x in
  outcome r.2 r.1 = X (foldl forward x fs)
  ∧ invocations (log r.2) = trace 0 x fs ++ T (length pre) (foldl forward x fs).
Proof.
  intros Hrest Hpre HX r.
  pose proof (execute_well_linked (pre ++ rest) x []) as Hwl.
  change (well_linked r.2) in Hwl. revert Hwl. unfold r.
  rewrite execute_unfold. cbn [fst snd].
  set (st0 := set_heap [Pending] initial).
  destruct (runner_prefix fs pre rest X T Hrest Hpre 0 x st0 ltac:(done))
    as [(q & Hq & Haw & Hx) Hlog].
  pose proof (runner_keeps (pre ++ rest) 0 x st0 0 ltac:(simpl; lia)) as H0.
  set (st1 := (runner (pre ++ rest) 0 x st0).2) in *.
  simpl in Hq, Haw, H0. intros Hwl. split.
  - eapply awaits_outcome; [exact Hwl | | | exact HX].
    + eapply rtc_l; [by apply settle_lookup_eq |].
      eapply awaits_mono; [| exact Haw]. intros p y Hp Hy.
      assert (p ≠ 0) by congruence. unfold resolve. by rewrite settle_lookup_ne.
    + unfold resolve. by rewrite settle_lookup_ne by lia.
  - unfold resolve. by rewrite settle_log, Hlog.
Qed.


Lemma runner_fails e t post index d st :
  fails_with e t → currentIndex st ≠ Z.of_nat index →
  let st' := (runner (t :: post) index d st).2 in
  (∃ q, length (heap st) ≤ q ∧ awaits (heap st') (length (heap st)) q
        ∧ heap st' !! q = Some (Rejected e))
  ∧ invocations (log st') = invocations (log st) ++ [(index, d)].
Proof.
  intros Ht Hc. rewrite runner_task by done. cbn [snd].
  pose proof (entered_lookup_call index d st) as HR.
  pose proof (entered_lookup_step index d st) as HP.
  assert (Hgoal : ∀ st2,
    heap st2 !! length (heap st) = Some Pending →
    heap st2 !! S (length (heap st)) = Some (Rejected e) →
    invocations (log st2) = invocations (log st) ++ [(index, d)] →
    let st' := resolve (length (heap st)) (S (length (heap st))) st2 in
    (∃ q, length (heap st) ≤ q ∧ awaits (heap st') (length (heap st)) q
          ∧ heap st' !! q = Some (Rejected e))
    ∧ invocations (log st') = invocations (log st) ++ [(index, d)]).
  { intros st2 H0 H1 Hl. simpl. unfold resolve. rewrite settle_log.
    split; [| done]. exists (S (length (heap st))). split; [lia |]. split.
    - apply rtc_once. by apply settle_lookup_eq.
    - by rewrite settle_lookup_ne by lia. }
  destruct (Ht (length (acts st)) d) as [-> | (He & nd & c & ->)].
  - apply Hgoal; unfold run_script, reject; simpl foldl; cbn [s_completion].
    + by rewrite settle_lookup_ne by lia.
    + by apply settle_lookup_eq.
    + rewrite settle_log. simpl. apply invocations_invoked.
  - unfold run_script. simpl foldl. cbn [s_completion].
    unfold next_with. simpl c_err. rewrite He.
    set (st1 := record _ (entered index d st)).
    assert (H0 : heap (reject (S (length (heap st))) e st1) !! length (heap st)
                 = Some Pending).
    { unfold reject. by rewrite settle_lookup_ne by lia. }
    assert (H1 : heap (reject (S (length (heap st))) e st1) !! S (length (heap st))
                 = Some (Rejected e)).
    { unfold reject. by apply settle_lookup_eq. }
    assert (Hl : invocations (log (reject (S (length (heap st))) e st1))
                 = invocations (log st) ++ [(index, d)]).
    { unfold reject. rewrite settle_log. simpl.
      rewrite invocations_continued. apply invocations_invoked. }
    destruct c as [r|e']; [by apply Hgoal |].
    apply Hgoal.
    + unfold reject at 1. by rewrite settle_lookup_ne by lia.
    + unfold reject at 1. by erewrite settle_resolved.
    + unfold reject at 1. by rewrite settle_log.
Qed.

Lemma runner_silent t post index d st :
  silent t → currentIndex st ≠ Z.of_nat index →
  let st' := (runner (t :: post) index d st).2 in
  (∃ q, length (heap st) ≤ q ∧ awaits (heap st') (length (heap st)) q
        ∧ heap st' !! q = Some Pending)
  ∧ invocations (log st') = invocations (log st) ++ [(index, d)].
Proof.
  intros Ht Hc. rewrite runner_task by done. cbn [snd].
  destruct (Ht (length (acts st)) d) as [r ->].
  unfold run_script. simpl foldl. cbn [s_completion].
  pose proof (entered_lookup_call index d st) as HR.
  pose proof (entered_lookup_step index d st) as HP.
  unfold resolve. rewrite settle_log. split; [| apply invocations_invoked].
  exists (S (length (heap st))). split; [lia |]. split.
  - apply rtc_once. by apply settle_lookup_eq.
  - by rewrite settle_lookup_ne by lia.
Qed.





(** X2. The first failure ends a pipeline of tasks that continue at once.
    If the tasks before [t] continue at once and [t] throws [e] without
    continuing, or calls its continuation once with the truthy [e], then
    [execute(x)] is rejected with exactly [e] when it returns; the tasks
    up to [t] have been invoked once each, in order, [t] with the payload
    threaded through the tasks before it; no task after [t] has been
    invoked; and no later continuation call changes the result. *)
Theorem failure_stops_pipeline fs pre t post e x :
  Forall2 continues_with fs pre → fails_with e t →
  let ts := pre ++ t :: post in
  let r := execute {| tasks := ts |} x in
  outcome r.2 r.1 = Rejected e
  ∧ invocations (log r.2)
    = trace 0 x fs ++ [(length pre, foldl forward x fs)]
  ∧ (∀ evs, outcome (run ts evs r.2) r.1 = Rejected e).
Proof.
  intros Hpre Ht ts r.
  destruct (execute_prefix fs pre (t :: post) (λ _, Rejected e)
              (λ i d, [(i, d)]) x) as [Hout Hlog];
    [intros; by apply runner_fails | done | done |].
  fold ts r in Hout, Hlog. split; [done |]. split; [done |].
  intros evs. eapply outcome_stable; [apply run_evolves | exact Hout | done].
Qed.

Lemma failure_stops_pipeline_witness :
  let fs := [λ _ : value, VNumber 2] in
  let pre := [transforms (λ _, VNumber 2)] in
  Forall2 continues_with fs pre
  ∧ fails_with bad (throws bad)
  ∧ fails_with bad (signals bad)
  ∧ (let ts := pre ++ throws bad :: [continues_once] in
     let r := execute {| tasks := ts |} (VNumber 1) in
     outcome r.2 r.1 = Rejected bad
     ∧ invocations (log r.2)
       = trace 0 (VNumber 1) fs ++ [(length pre, foldl forward (VNumber 1) fs)]
     ∧ ∀ evs, outcome (run ts evs r.2) r.1 = Rejected bad)
  ∧ (let ts := pre ++ signals bad :: [continues_once] in
     let r := execute {| tasks := ts |} (VNumber 1) in
     outcome r.2 r.1 = Rejected bad
     ∧ invocations (log r.2)
       = trace 0 (VNumber 1) fs ++ [(length pre, foldl forward (VNumber 1) fs)]
     ∧ ∀ evs, outcome (run ts evs r.2) r.1 = Rejected bad).
Proof.
  intros fs pre.
  assert (H : Forall2 continues_with fs pre).
  { constructor; [apply transforms_continues_with | constructor]. }
  assert (Ht : fails_with bad (throws bad)) by (intros a d; by left).
  assert (Hs : fails_with bad (signals bad)).
  { intros a d. right. split; [reflexivity |]. by exists VUndefined, done_. }
  split; [exact H |]. split; [exact Ht |]. split; [exact Hs |].
  split.
  - exact (failure_stops_pipeline fs pre (throws bad) [continues_once] bad
             (VNumber 1) H Ht).
  - exact (failure_stops_pipeline fs pre (signals bad) [continues_once] bad
             (VNumber 1) H Hs).
Defined.

(** X3. No timeout. If the tasks before [t] continue at once and [t]
    returns without calling its continuation and without throwing, the
    result of [execute(x)] is pending when the call returns: the tasks up
    to [t] have been invoked once each, [t] with the payload threaded so
    far, and nothing after [t]. *)
Theorem silent_task_stalls fs pre t post x :
  Forall2 continues_with fs pre → silent t →
  let r := execute {| tasks := pre ++ t :: post |} x in
  outcome r.2 r.1 = Pending
  ∧ invocations (log r.2)
    = trace 0 x fs ++ [(length pre, foldl forward x fs)].
Proof.
  intros Hpre Ht r.
  destruct (execute_prefix fs pre (t :: post) (λ _, Pending)
              (λ i d, [(i, d)]) x) as [Hout Hlog];
    [intros; by apply runner_silent | done | done |].
  done.
Qed.

Lemma silent_task_stalls_witness :
  let fs := [λ _ : value, VNumber 2] in
  let pre := [transforms (λ _, VNumber 2)] in
  Forall2 continues_with fs pre
  ∧ silent continues_later
  ∧ (let r := execute {| tasks := pre ++ continues_later :: [continues_once] |}
                (VNumber 1) in
     outcome r.2 r.1 = Pending
     ∧ invocations (log r.2)
       = trace 0 (VNumber 1) fs ++ [(length pre, foldl forward (VNumber 1) fs)]).
Proof.
  intros fs pre.
  assert (H : Forall2 continues_with fs pre).
  { constructor; [apply transforms_continues_with | constructor]. }
  assert (Ht : silent continues_later) by (intros a d; by eexists).
  split; [exact H |]. split; [exact Ht |].
  exact (silent_task_stalls fs pre continues_later [continues_once] (VNumber 1) H Ht).
Defined.

(** ** Tasks that continue later *)

Lemma fire_lookup ts a act c st :
  acts st !! a = Some act → fire ts (a, c) st = next ts a act c st.
Proof. intros Ha. unfold fire. simpl. by rewrite Ha. Qed.









(** ** A continuation that has been called has resolved its promise *)

Lemma calls_resolved_same st st' :
  continued_ids (log st') = continued_ids (log st) → calls_resolved_since st st'.
Proof. intros H a Ha. left. by rewrite <- H. Qed.

Lemma calls_resolved_trans st st1 st2 :
  calls_resolved_since st st1 → calls_resolved_since st1 st2 →
  evolves_from 0 st1 st2 → calls_resolved_since st st2.
Proof.
  intros H1 H2 E a Ha. destruct (H2 a Ha) as [Ha1 | Hres]; [| by right].
  destruct (H1 a Ha1) as [Ha0 | (act & y & Hact & Hy & Hne)]; [by left | right].
  exists act, y. split; [| split; [| done]].
  - eapply prefix_lookup_Some; [exact Hact | apply (ev_acts _ _ _ E)].
  - eapply ev_heap; eauto.
Qed.

Lemma settle_decides p x st :
  p < length (heap st) → x ≠ Pending →
  ∃ y, heap (settle p x st) !! p = Some y ∧ y ≠ Pending.
Proof.
  intros Hp Hx. destruct (lookup_lt_is_Some_2 _ _ Hp) as [y Hy].
  destruct y as [|v|e|q]; [exists x; split; [by apply settle_lookup_eq | done] | ..];
    (eexists; split; [by erewrite settle_resolved | done]).
Qed.

Lemma settle_keeps_resolved p x q y st :
  heap st !! q = Some y → y ≠ Pending → heap (settle p x st) !! q = Some y.
Proof.
  intros Hq Hy. destruct (decide (p = q)) as [->|Hne].
  - by erewrite settle_resolved.
  - by rewrite settle_lookup_ne.
Qed.

Lemma calls_resolved_settle p x st0 st :
  calls_resolved_since st0 st → calls_resolved_since st0 (settle p x st).
Proof.
  intros H a. rewrite settle_log, settle_acts. intros Ha.
  destruct (H a Ha) as [? | (act & y & Hact & Hy & Hne)]; [by left | right].
  exists act, y. split; [done |]. split; [| done]. by apply settle_keeps_resolved.
Qed.

Lemma next_with_calls run a act c st :
  (∀ d st0, calls_resolved_since st0 (run d st0).2
            ∧ evolves_from 0 st0 (run d st0).2) →
  acts st !! a = Some act → a_promise act < length (heap st) →
  calls_resolved_since st (next_with run a act c st).
Proof.
  intros Hrun Hact Hp. unfold next_with.
  set (st1 := record _ st).
  assert (Hlast : ∀ x st2, x ≠ Pending → calls_resolved_since st1 st2 →
            evolves_from 0 st1 st2 →
            calls_resolved_since st (settle (a_promise act) x st2)).
  { intros x st2 Hx H12 E b. rewrite settle_log. intros Hb.
    destruct (H12 b Hb) as [Hb1 | (actb & y & Hactb & Hy & Hne)].
    - simpl in Hb1. rewrite continued_ids_continued, elem_of_app in Hb1.
      destruct Hb1 as [? | ->%list_elem_of_singleton]; [by left | right].
      destruct (settle_decides (a_promise act) x st2) as (y & Hy & Hne);
        [pose proof (ev_length _ _ _ E); simpl in *; lia | done |].
      exists act, y. rewrite settle_acts. split; [| done].
      eapply prefix_lookup_Some; [exact Hact | apply (ev_acts _ _ _ E)].
    - right. exists actb, y. rewrite settle_acts. split; [done |].
      split; [| done]. by apply settle_keeps_resolved. }
  destruct (truthy (c_err c)).
  - apply Hlast; [done | by apply calls_resolved_same | apply evolves_refl].
  - destruct (Hrun (if not_undefined (c_nextData c) then c_nextData c
                    else a_data act) st1) as [H12 E].
    destruct (run _ st1) as [r st2]. simpl in *. by apply Hlast.
Qed.

Lemma runner_calls rest : ∀ index d st,
  calls_resolved_since st (runner rest index d st).2.
Proof.
  induction rest as [|t rest IH]; intros index d st.
  - destruct (decide (currentIndex st = Z.of_nat index)) as [Hc|Hc].
    + rewrite runner_guard by done. by apply calls_resolved_same.
    + rewrite runner_end by done. by apply calls_resolved_same.
  - destruct (decide (currentIndex st = Z.of_nat index)) as [Hc|Hc].
    { rewrite runner_guard by done. by apply calls_resolved_same. }
    rewrite runner_task by done. cbn [snd]. apply calls_resolved_settle.
    set (act := {| a_index := index; a_data := d; a_promise := S (length (heap st)) |}).
    set (next := next_with (runner rest (S index)) (length (acts st)) act).
    assert (Hent : calls_resolved_since st (entered index d st)).
    { apply calls_resolved_same. simpl. apply continued_ids_invoked. }
    assert (Hfold : ∀ calls st0,
              acts st0 !! length (acts st) = Some act →
              S (length (heap st)) < length (heap st0) →
              calls_resolved_since st st0 →
              calls_resolved_since st (foldl (λ st c, next c st) st0 calls)).
    { induction calls as [|c calls IHc]; intros st0 Ha0 Hl0 H0; simpl; [done |].
      pose proof (next_with_runner_evolves rest (S index) (length (acts st))
                    act c st0) as E.
      apply IHc.
      - eapply prefix_lookup_Some; [exact Ha0 | apply (ev_acts _ _ _ E)].
      - pose proof (ev_length _ _ _ E). unfold next. lia.
      - eapply calls_resolved_trans; [exact H0 | | exact E].
        apply next_with_calls; [| done | done].
        intros d0 st1. split; [apply IH | apply runner_evolves; lia]. }
    assert (Hact : acts (entered index d st) !! length (acts st) = Some act).
    { simpl. rewrite lookup_app_r by lia. by rewrite Nat.sub_diag. }
    assert (Hlen : S (length (heap st)) < length (heap (entered index d st))).
    { simpl. rewrite length_app. simpl. lia. }
    unfold run_script. destruct (s_completion _).
    + by apply Hfold.
    + apply calls_resolved_settle. by apply Hfold.
Qed.

Lemma fire_well_linked ts ev st : well_linked st → well_linked (fire ts ev st).
Proof. apply (run_well_linked ts [ev]). Qed.

Lemma fire_calls ts ev st :
  well_linked st → calls_resolved_since st (fire ts ev st).
Proof.
  intros Hwl. unfold fire. destruct (acts st !! ev.1) as [act|] eqn:Ha;
    [| by apply calls_resolved_same].
  apply next_with_calls; [| done | by eapply wl_acts].
  intros d st0. split; [apply runner_calls | apply runner_evolves; lia].
Qed.

Lemma run_calls ts evs : ∀ st,
  well_linked st → calls_resolved_since st (run ts evs st).
Proof.
  induction evs as [|ev evs IH]; intros st Hwl; simpl.
  - by apply calls_resolved_same.
  - eapply calls_resolved_trans; [by apply fire_calls | | apply run_evolves].
    apply IH. by apply fire_well_linked.
Qed.

(** In a state of an execution, every continuation that has been called
    has resolved the promise of its activation. *)
Lemma execute_calls ts x evs a :
  let st := run ts evs (execute {| tasks := ts |} x).2 in
  a ∈ continued_ids (log st) →
  ∃ act y, acts st !! a = Some act
           ∧ heap st !! a_promise act = Some y ∧ y ≠ Pending.
Proof.
  intros st Ha.
  assert (H : calls_resolved_since initial st).
  { eapply calls_resolved_trans; [| apply run_calls | apply run_evolves].
    - rewrite execute_unfold. cbn [snd]. apply calls_resolved_settle.
      eapply calls_resolved_trans; [| apply runner_calls | apply runner_evolves; lia].
      by apply calls_resolved_same.
    - apply (execute_well_linked ts x []). }
  destruct (H a Ha) as [Hnil | Hres]; [| done].
  simpl in Hnil. by apply elem_of_nil in Hnil.
Qed.

(** ** Promises a call does not touch *)

Lemma chase_awaits h : ∀ fuel p, awaits h p (chase fuel h p).
Proof.
  induction fuel as [|fuel IH]; intros p; simpl; [apply rtc_refl |].
  destruct (h !! p) as [[| | |q]|] eqn:Hp; try apply rtc_refl.
  eapply rtc_l; [exact Hp | apply IH].
Qed.

Lemma awaits_bound st p q :
  well_linked st → awaits (heap st) p q →
  p < length (heap st) → q < length (heap st).
Proof.
  intros [Hl _]. induction 1 as [|p p1 q Hlink _ IH]; [done |].
  intros _. apply IH. apply Hl in Hlink. lia.
Qed.

(** The eventual state of a promise depends only on the promises that
    existed when it was last looked at, as long as those are unchanged. *)
Lemma outcome_frame st st' p :
  well_linked st → well_linked st' →
  evolves_from (length (heap st)) st st' → p < length (heap st) →
  outcome st' p = outcome st p.
Proof.
  intros Hwl Hwl' E Hp.
  pose proof (chase_awaits (heap st) (length (heap st)) p) as Haw.
  fold (terminus st p) in Haw.
  pose proof (awaits_bound _ _ _ Hwl Haw Hp) as Hq.
  destruct (lookup_lt_is_Some_2 _ _ Hq) as [x Hx].
  assert (Hnf : ∀ r, x ≠ Follows r).
  { intros r ->. revert Hx. unfold terminus.
    apply chase_total; [apply Hwl | lia]. }
  unfold outcome at 2. rewrite Hx. simpl.
  eapply awaits_outcome; [exact Hwl' | | | exact Hnf].
  - eapply awaits_mono; [| exact Haw]. intros r y Hr Hy.
    eapply ev_heap; eauto.
  - eapply ev_heap; eauto.
Qed.

Lemma execute_heap ts x evs :
  0 < length (heap (run ts evs (execute {| tasks := ts |} x).2)).
Proof.
  pose proof (ev_length _ _ _ (run_evolves ts evs (execute {| tasks := ts |} x).2)) as H.
  rewrite execute_unfold in *. cbn [snd] in *. unfold resolve in *.
  rewrite settle_length in H.
  pose proof (runner_grows ts 0 x (set_heap [Pending] initial)). lia.
Qed.

Lemma repeated_calls_evolve ts x evs evs' :
  let st := run ts evs (execute {| tasks := ts |} x).2 in
  Forall (λ ev, ev.1 ∈ continued_ids (log st)) evs' →
  evolves_from (length (heap st)) st (run ts evs' st).
Proof.
  intros st. induction evs' as [|ev evs' IH] using rev_ind; intros Hevs.
  - apply evolves_refl.
  - apply Forall_app in Hevs as [Hevs Hev]. inversion Hev as [|? ? Ha _]; subst.
    specialize (IH Hevs). rewrite run_app. simpl.
    eapply evolves_trans; [exact IH |].
    assert (Ha1 : ev.1 ∈ continued_ids (log (run ts evs' st))).
    { eapply elem_of_prefix; [exact Ha |].
      apply continued_ids_prefix, (ev_log _ _ _ IH). }
    pose proof (ev_length _ _ _ IH) as Hlen.
    unfold st in Ha1, Hlen |- *. rewrite <- run_app in Ha1, Hlen |- *.
    destruct (execute_calls ts x (evs ++ evs') _ Ha1) as (act & y & Hact & Hy & Hne).
    destruct ev as [a c]. rewrite (fire_lookup _ _ _ _ _ Hact).
    eapply evolves_weaken; [exact Hlen |]. by eapply next_after_resolution.
Qed.

(** X5. Calling continuations again settles nothing. In any state of any
    execution, further calls of continuations that have already been
    called, with or without an error, in any number, change no promise
    that exists: every promise has the same eventual state after them as
    before, and so has the result of [execute]. They can neither make a
    pending execution fail or complete, nor change a settled one; what
    they can do is invoke later tasks again. *)
Theorem repeated_calls_leave_promises ts x evs evs' :
  let r := execute {| tasks := ts |} x in
  let st := run ts evs r.2 in
  let st' := run ts evs' st in
  Forall (λ ev, ev.1 ∈ continued_ids (log st)) evs' →
  (∀ p, p < length (heap st) → heap st' !! p = heap st !! p)
  ∧ (∀ p, p < length (heap st) → outcome st' p = outcome st p)
  ∧ outcome st' r.1 = outcome st r.1.
Proof.
  cbv zeta. rewrite execute_fst. intros Hevs.
  pose proof (repeated_calls_evolve ts x evs evs' Hevs) as E. cbv zeta in E.
  set (st := run ts evs (execute {| tasks := ts |} x).2) in *.
  assert (Hout : ∀ p, p < length (heap st) →
            outcome (run ts evs' st) p = outcome st p).
  { intros p Hp. apply outcome_frame; [| | done | done].
    - apply execute_well_linked.
    - unfold st. rewrite <- run_app. apply execute_well_linked. }
  split; [| split; [done |]].
  - intros p Hp. destruct (lookup_lt_is_Some_2 _ _ Hp) as [z Hz].
    rewrite Hz. eapply ev_heap; eauto.
  - apply Hout. apply execute_heap.
Qed.

Lemma repeated_calls_leave_promises_witness :
  let ts := [continues_once; continues_later] in
  let r := execute {| tasks := ts |} (VNumber 7) in
  let st := run ts [] r.2 in
  let st' := run ts [(0, continue_); (0, Call bad VUndefined)] st in
  Forall (λ ev : event, ev.1 ∈ continued_ids (log st))
    [(0, continue_); (0, Call bad VUndefined)]
  ∧ outcome st' r.1 = outcome st r.1
  ∧ outcome st r.1 = Pending.
Proof.
  intros ts r st st'.
  assert (H0 : 0 ∈ continued_ids (log st)) by (apply elem_of_cons; by left).
  assert (H : Forall (λ ev : event, ev.1 ∈ continued_ids (log st))
                [(0, continue_); (0, Call bad VUndefined)]).
  { constructor; [exact H0 |]. constructor; [exact H0 | constructor]. }
  destruct (repeated_calls_leave_promises ts (VNumber 7) []
              [(0, continue_); (0, Call bad VUndefined)] H) as (_ & _ & Hout).
  split; [exact H |]. split; [exact Hout | reflexivity].
Defined.

(** ** The guard at a continuation call *)

(** X6. What the guard of [runner] does at a continuation call. When a
    continuation is called without error while the cursor is on the task
    after its own, no task is invoked: the log gains the call alone, the
    activations and the cursor stay as they are, and the promise of the
    [runner] call is rejected with the protocol error. That rejection
    shows only if the promise of the activation was still pending: then
    every promise waiting on it is rejected with the protocol error, for
    good. If the promise of the activation was resolved already, no
    existing promise changes. *)
Theorem guard_on_continuation ts a act c st :
  truthy (c_err c) = false →
  currentIndex st = Z.of_nat (S (a_index act)) →
  let st' := next ts a act c st in
  log st' = log st ++ [Continued a (c_err c) (c_nextData c)]
  ∧ acts st' = acts st
  ∧ currentIndex st' = currentIndex st
  ∧ heap st' !! length (heap st) = Some (Rejected protocol_error)
  ∧ (heap st !! a_promise act = Some Pending →
       ∀ p, terminus st p = a_promise act →
            ∀ evs, outcome (run ts evs st') p = Rejected protocol_error)
  ∧ (∀ y, heap st !! a_promise act = Some y → y ≠ Pending →
       ∀ p, p < length (heap st) → heap st' !! p = heap st !! p).
Proof.
  intros He Hc st'. unfold st'. rewrite next_falsy by done.
  rewrite runner_guard by done. cbn [snd]. unfold resolve.
  set (st1 := set_heap _ _).
  assert (HR : heap st1 !! length (heap st) = Some (Rejected protocol_error)).
  { simpl. rewrite lookup_app_r by lia. by rewrite Nat.sub_diag. }
  rewrite settle_log, settle_acts, settle_currentIndex.
  split; [done |]. split; [done |]. split; [done |]. split; [| split].
  - destruct (decide (a_promise act = length (heap st))) as [Heq|Hne].
    + rewrite Heq. by erewrite settle_resolved.
    + by rewrite settle_lookup_ne.
  - intros Hp p Ht evs. pose proof (lookup_lt_Some _ _ _ Hp) as Hlt.
    assert (Hp1 : heap st1 !! a_promise act = Some Pending).
    { simpl. by apply lookup_app_l_Some. }
    eapply outcome_stable; [apply run_evolves | | done].
    eapply outcome_resolved_chain with (st := st) (p := a_promise act)
      (q := length (heap st)); [| exact Ht | exact Hp | | | done |].
    + peel evolves_settle; [| lia]. unfold st1.
      apply (evolves_trans _ _ (record (Continued a (c_err c) (c_nextData c)) st));
        [apply evolves_record | apply evolves_alloc_with].
    + by apply settle_lookup_eq.
    + by rewrite settle_lookup_ne by lia.
    + rewrite settle_length. simpl. rewrite length_app. simpl. lia.
  - intros y Hy Hne p Hp.
    assert (Hy1 : heap st1 !! a_promise act = Some y).
    { simpl. by apply lookup_app_l_Some. }
    erewrite settle_resolved by eauto. simpl. by rewrite lookup_app_l.
Qed.

Lemma guard_on_continuation_witness :
  let ts := [continues_later; continues_once; continues_later] in
  let r := execute {| tasks := ts |} (VNumber 7) in
  let st := run ts [(0, continue_); (0, continue_); (4, continue_)] r.2 in
  let act := {| a_index := 2; a_data := VNumber 7; a_promise := 6 |} in
  acts st !! 2 = Some act
  ∧ truthy (c_err continue_) = false
  ∧ currentIndex st = Z.of_nat (S (a_index act))
  ∧ heap st !! a_promise act = Some Pending
  ∧ terminus st 0 = a_promise act
  ∧ log (next ts 2 act continue_ st)
    = log st ++ [Continued 2 (c_err continue_) (c_nextData continue_)]
  ∧ outcome (run ts [] (next ts 2 act continue_ st)) 0 = Rejected protocol_error.
Proof.
  intros ts r st act.
  assert (Hc : currentIndex st = Z.of_nat (S (a_index act))) by reflexivity.
  assert (Hp : heap st !! a_promise act = Some Pending) by reflexivity.
  assert (Ht : terminus st 0 = a_promise act) by reflexivity.
  destruct (guard_on_continuation ts 2 act continue_ st eq_refl Hc)
    as (Hlog & _ & _ & _ & Hrej & _).
  split; [reflexivity |]. split; [reflexivity |]. split; [exact Hc |].
  split; [exact Hp |]. split; [exact Ht |]. split; [exact Hlog |].
  exact (Hrej Hp 0 Ht []).
Defined.

(** ** A settled result *)

(** X7. The first settlement wins. Once a promise of an execution, the
    result of [execute] among them, is fulfilled or rejected, it stays
    so, with the same value, whatever continuation calls come later. *)
Theorem settled_result_is_final ts x evs evs' p y :
  let r := execute {| tasks := ts |} x in
  outcome (run ts evs r.2) p = y → settled y →
  outcome (run ts (evs ++ evs') r.2) p = y.
Proof.
  intros r Hy Hs. rewrite run_app.
  eapply outcome_stable; [apply run_evolves | exact Hy | exact Hs].
Qed.

Lemma settled_result_is_final_witness :
  let ts := [signals bad; continues_once] in
  let r := execute {| tasks := ts |} (VNumber 7) in
  outcome (run ts [] r.2) 0 = Rejected bad
  ∧ settled (Rejected bad)
  ∧ outcome (run ts ([] ++ [(0, continue_); (1, continue_)]) r.2) 0 = Rejected bad.
Proof.
  intros ts r.
  assert (H : outcome (run ts [] r.2) 0 = Rejected bad) by reflexivity.
  split; [exact H |]. split; [exact I |].
  exact (settled_result_is_final ts (VNumber 7) [] [(0, continue_); (1, continue_)]
           0 (Rejected bad) H I).
Defined.

(** ** Which tasks a call of [runner] invokes *)

Lemma within_nil lo hi : within lo hi [].
Proof. intros j d H. by apply elem_of_nil in H. Qed.

Lemma within_app lo hi l l' :
  within lo hi l → within lo hi l' → within lo hi (l ++ l').
Proof.
  intros H H' j d. unfold invocations. rewrite omap_app, elem_of_app.
  intros [Hj | Hj]; [by apply (H j d) | by apply (H' j d)].
Qed.

Lemma within_weaken lo hi lo' hi' l :
  (∀ j, lo ≤ j < hi → lo' ≤ j < hi') → within lo hi l → within lo' hi' l.
Proof. intros Hj H j d Hin. eapply Hj, H, Hin. Qed.

Lemma within_continued lo hi a e nd l :
  within lo hi l → within lo hi (Continued a e nd :: l).
Proof. intros H j d Hin. by apply (H j d). Qed.

Lemma next_with_within lo hi run a act c st :
  (∀ d st0, ∃ l, log (run d st0).2 = log st0 ++ l ∧ within lo hi l) →
  ∃ l, log (next_with run a act c st) = log st ++ l ∧ within lo hi l.
Proof.
  intros Hrun. unfold next_with. set (st1 := record _ st).
  destruct (truthy (c_err c)).
  - unfold reject. rewrite settle_log. eexists. split; [reflexivity |].
    apply within_continued, within_nil.
  - destruct (Hrun (if not_undefined (c_nextData c) then c_nextData c
                    else a_data act) st1) as (l & Hl & Hin).
    destruct (run _ st1) as [r st2]. simpl in *.
    unfold resolve. rewrite settle_log, Hl, <- app_assoc.
    eexists. split; [reflexivity |]. by apply within_continued.
Qed.

Lemma calls_within lo hi run a act calls : ∀ st,
  (∀ d st0, ∃ l, log (run d st0).2 = log st0 ++ l ∧ within lo hi l) →
  ∃ l, log (foldl (λ st c, next_with run a act c st) st calls) = log st ++ l
       ∧ within lo hi l.
Proof.
  induction calls as [|c calls IH]; intros st Hrun; simpl.
  - exists []. split; [by rewrite app_nil_r | apply within_nil].
  - destruct (next_with_within lo hi run a act c st Hrun) as (l1 & Hl1 & H1).
    destruct (IH (next_with run a act c st) Hrun) as (l2 & Hl2 & H2).
    exists (l1 ++ l2). split; [by rewrite Hl2, Hl1, app_assoc |].
    by apply within_app.
Qed.

(** A call of [runner] invokes only tasks from [index] on, within the
    registry, and the task at [index] first, with the payload of the
    call, and only once. *)
Lemma runner_log rest : ∀ index d st,
  ∃ l, log (runner rest index d st).2 = log st ++ l
       ∧ within index (index + length rest) l
       ∧ (currentIndex st ≠ Z.of_nat index → rest ≠ [] →
            ∃ l', l = Invoked index d :: l'
                  ∧ within (S index) (index + length rest) l').
Proof.
  induction rest as [|t rest IH]; intros index d st.
  - exists []. split; [| split; [apply within_nil | done]].
    destruct (decide (currentIndex st = Z.of_nat index)) as [Hc|Hc].
    + rewrite runner_guard by done. simpl. by rewrite app_nil_r.
    + rewrite runner_end by done. simpl. by rewrite app_nil_r.
  - destruct (decide (currentIndex st = Z.of_nat index)) as [Hc|Hc].
    { exists []. rewrite runner_guard by done. simpl.
      split; [by rewrite app_nil_r |]. split; [apply within_nil | done]. }
    rewrite runner_task by done. cbn [snd]. unfold resolve. rewrite settle_log.
    destruct (calls_within (S index) (S index + length rest)
                (runner rest (S index)) (length (acts st))
                {| a_index := index; a_data := d;
                   a_promise := S (length (heap st)) |}
                (s_calls (try_block t (length (acts st)) d))
                (entered index d st)) as (l & Hl & Hin).
    { intros d0 st0. destruct (IH (S index) d0 st0) as (l0 & Hl0 & Hin0 & _).
      eauto. }
    assert (Hlog : log (run_script
              (next_with (runner rest (S index)) (length (acts st))
                 {| a_index := index; a_data := d;
                    a_promise := S (length (heap st)) |})
              (S (length (heap st))) (try_block t (length (acts st)) d)
              (entered index d st)) = log st ++ Invoked index d :: l).
    { unfold run_script. destruct (s_completion _);
        [| unfold reject; rewrite settle_log]; rewrite Hl; simpl;
        by rewrite <- app_assoc. }
    assert (Hl' : within (S index) (index + length (t :: rest)) l).
    { eapply within_weaken; [| exact Hin]. simpl. lia. }
    exists (Invoked index d :: l). split; [done |]. split; [| by eauto].
    intros j d' Hj. simpl in Hj. apply elem_of_cons in Hj as [[= -> ->] | Hj].
    + simpl. lia.
    + apply Hl' in Hj. lia.
Qed.

Lemma fire_log ts ev st :
  ∃ l, log (fire ts ev st) = log st ++ l ∧ within 1 (length ts) l.
Proof.
  unfold fire. destruct (acts st !! ev.1) as [act|].
  - apply next_with_within. intros d st0.
    destruct (runner_log (drop (S (a_index act)) ts) (S (a_index act)) d st0)
      as (l & Hl & Hin & _).
    exists l. split; [done |]. eapply within_weaken; [| exact Hin].
    intros j. rewrite length_drop. lia.
  - exists []. split; [by rewrite app_nil_r | apply within_nil].
Qed.

Lemma run_log ts evs : ∀ st,
  ∃ l, log (run ts evs st) = log st ++ l ∧ within 1 (length ts) l.
Proof.
  induction evs as [|ev evs IH]; intros st; simpl.
  - exists []. split; [by rewrite app_nil_r | apply within_nil].
  - destruct (fire_log ts ev st) as (l1 & Hl1 & H1).
    destruct (IH (fire ts ev st)) as (l2 & Hl2 & H2).
    exists (l1 ++ l2). split; [by rewrite Hl2, Hl1, app_assoc |].
    by apply within_app.
Qed.

(** X8. In every execution, whatever the tasks do, every invocation is
    the invocation of a task of the registry (the index read from the
    registry is below its length), and on a pipeline that is not empty
    the first thing that happens is the invocation of the first task
    with the initial payload, and the first task is never invoked
    again. *)
Theorem invocations_within_registry ts x evs :
  let st := run ts evs (execute {| tasks := ts |} x).2 in
  (∀ j d, (j, d) ∈ invocations (log st) → j < length ts)
  ∧ (ts ≠ [] → ∃ l, log st = Invoked 0 x :: l
                     ∧ ∀ d, (0, d) ∉ invocations l).
Proof.
  intros st. unfold st.
  destruct (run_log ts evs (execute {| tasks := ts |} x).2) as (l2 & -> & H2).
  rewrite execute_unfold. cbn [snd]. unfold resolve. rewrite settle_log.
  destruct (runner_log ts 0 x (set_heap [Pending] initial))
    as (l1 & Hl1 & H1 & Hfirst).
  rewrite Hl1. simpl. split.
  - intros j d. unfold invocations. rewrite omap_app, elem_of_app.
    intros [Hj | Hj]; [apply H1 in Hj | apply H2 in Hj]; lia.
  - intros Hts. destruct (Hfirst ltac:(done) Hts) as (l' & -> & H').
    exists (l' ++ l2). split; [done |]. intros d.
    unfold invocations. rewrite omap_app, elem_of_app.
    intros [Hj | Hj]; [apply H' in Hj | apply H2 in Hj]; lia.
Qed.

Lemma invocations_within_registry_witness :
  let ts := [continues_twice; continues_once] in
  let st := run ts [(0, continue_)] (execute {| tasks := ts |} (VNumber 7)).2 in
  ts ≠ []
  ∧ (∃ l, log st = Invoked 0 (VNumber 7) :: l ∧ ∀ d, (0, d) ∉ invocations l)
  ∧ (invocations (log st)).*1 = [0; 1; 1; 1].
Proof.
  intros ts st.
  assert (Hts : ts ≠ []) by discriminate.
  destruct (invocations_within_registry ts (VNumber 7) [(0, continue_)])
    as [_ Hfirst].
  split; [exact Hts |]. split; [exact (Hfirst Hts) | reflexivity].
Defined.

(** ** The payload of every invocation *)

Lemma forwarded_from_mono A A' i d prev :
  A `prefix_of` A' → forwarded_from A i d prev → forwarded_from A' i d prev.
Proof.
  intros HA (a & act & e & nd & H1 & H2 & H3). exists a, act, e, nd.
  split; [done |]. split; [| done]. by eapply prefix_lookup_Some.
Qed.

Lemma chained_settle p x st : chained st → chained (settle p x st).
Proof. intros [Ha Hl]. split; by rewrite settle_acts, settle_log. Qed.

Lemma chained_continued a e nd st :
  chained st → chained (record (Continued a e nd) st).
Proof.
  intros [Ha Hl]. split; simpl.
  - by rewrite invocations_continued.
  - intros k i d Hk. destruct (decide (k < length (log st))) as [Hlt|Hge].
    + rewrite lookup_app_l in Hk by done.
      destruct (Hl k i d Hk) as (k' & -> & H). exists k'. split; [done |].
      by rewrite lookup_app_l by lia.
    + rewrite lookup_app_r in Hk by lia.
      destruct (k - length (log st)) as [|j]; simpl in Hk; [discriminate |].
      by rewrite lookup_nil in Hk.
Qed.

Lemma chained_entered index d st :
  chained st →
  (∀ i, index = S i → forwarded_from (acts st) i d (last (log st))) →
  chained (entered index d st).
Proof.
  intros [Ha Hl] Hlast. split; simpl.
  - by rewrite map_app, invocations_invoked, Ha.
  - intros k i d' Hk.
    assert (HA : acts st `prefix_of` acts st ++
              [{| a_index := index; a_data := d;
                  a_promise := S (length (heap st)) |}]) by by apply prefix_app_r.
    destruct (decide (k < length (log st))) as [Hlt|Hge].
    + rewrite lookup_app_l in Hk by done.
      destruct (Hl k i d' Hk) as (k' & -> & H). exists k'. split; [done |].
      rewrite lookup_app_l by lia. by eapply forwarded_from_mono.
    + rewrite lookup_app_r in Hk by lia.
      destruct (k - length (log st)) as [|j] eqn:Hj; simpl in Hk;
        [| by rewrite lookup_nil in Hk].
      injection Hk as -> ->. assert (k = length (log st)) as -> by lia.
      specialize (Hlast i eq_refl).
      eapply forwarded_from_mono in Hlast; [| exact HA].
      destruct Hlast as (a & act & e & nd & H1 & H2).
      destruct (log st) as [|y l] using rev_ind; [discriminate |].
      rewrite last_snoc in H1. rewrite length_app. simpl.
      exists (length l). split; [lia |].
      exists a, act, e, nd. split; [| done].
      rewrite lookup_app_l by (rewrite length_app; simpl; lia).
      rewrite lookup_app_r by lia. by rewrite Nat.sub_diag.
Qed.

Lemma next_with_chained run a act c st :
  keeps_chain (a_index act) run →
  acts st !! a = Some act → chained st →
  chained (next_with run a act c st)
  ∧ evolves_from 0 st (next_with run a act c st).
Proof.
  intros Hrun Ha Hch. unfold next_with.
  set (st1 := record _ st).
  assert (Hch1 : chained st1) by by apply chained_continued.
  assert (E1 : evolves_from 0 st st1) by apply evolves_record.
  destruct (truthy (c_err c)) eqn:He.
  - split; [by apply chained_settle |].
    eapply evolves_trans; [exact E1 | apply evolves_settle; lia].
  - destruct (Hrun (if not_undefined (c_nextData c) then c_nextData c
                    else a_data act) st1 Hch1) as [Hch2 E2].
    { exists a, act, (c_err c), (c_nextData c). simpl. by rewrite last_snoc. }
    destruct (run _ st1) as [r st2]. simpl in *.
    split; [by apply chained_settle |].
    eapply evolves_trans; [exact E1 |].
    eapply evolves_trans; [exact E2 | apply evolves_settle; lia].
Qed.

Lemma runner_chained rest : ∀ index d st,
  chained st →
  (∀ i, index = S i → forwarded_from (acts st) i d (last (log st))) →
  chained (runner rest index d st).2.
Proof.
  induction rest as [|t rest IH]; intros index d st Hch Hlast.
  - destruct (decide (currentIndex st = Z.of_nat index)) as [Hc|Hc].
    + rewrite runner_guard by done. by destruct Hch.
    + rewrite runner_end by done. by destruct Hch.
  - destruct (decide (currentIndex st = Z.of_nat index)) as [Hc|Hc];
      [rewrite runner_guard by done; by destruct Hch |].
    rewrite runner_task by done. cbn [snd]. apply chained_settle.
    unfold run_script.
    set (act := {| a_index := index; a_data := d; a_promise := S (length (heap st)) |}).
    set (next := next_with (runner rest (S index)) (length (acts st)) act).
    assert (Hfold : ∀ calls st0,
              acts st0 !! length (acts st) = Some act → chained st0 →
              chained (foldl (λ st c, next c st) st0 calls)).
    { induction calls as [|c calls IHc]; intros st0 Ha0 Hch0; simpl; [done |].
      destruct (next_with_chained (runner rest (S index)) (length (acts st))
                  act c st0) as [Hch1 E1]; [| done | done |].
      - intros d0 st1 Hch1 Hl1. split; [| apply runner_evolves; lia].
        apply IH; [done |]. by intros i [= <-].
      - apply IHc; [| done].
        eapply prefix_lookup_Some; [exact Ha0 | apply (ev_acts _ _ _ E1)]. }
    assert (Hent : chained (entered index d st)) by by apply chained_entered.
    assert (Hact : acts (entered index d st) !! length (acts st) = Some act).
    { simpl. rewrite lookup_app_r by lia. by rewrite Nat.sub_diag. }
    destruct (s_completion _); [by apply Hfold |].
    apply chained_settle. by apply Hfold.
Qed.

Lemma fire_chained ts ev st : chained st → chained (fire ts ev st).
Proof.
  intros Hch. unfold fire. destruct (acts st !! ev.1) as [act|] eqn:Ha; [| done].
  apply next_with_chained; [| done | done].
  intros d st1 Hch1 Hl1. split; [| apply runner_evolves; lia].
  apply runner_chained; [done |]. by intros i [= <-].
Qed.

Lemma execute_chained ts x evs :
  chained (run ts evs (execute {| tasks := ts |} x).2).
Proof.
  assert (H : chained (execute {| tasks := ts |} x).2).
  { rewrite execute_unfold. cbn [snd]. apply chained_settle.
    apply runner_chained; [| done]. split; [done |].
    intros k i d Hk. simpl in Hk. by rewrite lookup_nil in Hk. }
  revert H. generalize (execute {| tasks := ts |} x).2.
  induction evs as [|ev evs IH]; intros st Hch; simpl; [done |].
  apply IH. by apply fire_chained.
Qed.

(** X9. What every task receives. In every execution, whatever the tasks
    do, the activations are the invocations of the log, one for one with
    the same index and payload, and every invocation of a task other
    than the first comes right after a continuation call without error
    of an activation of the task before it, and receives exactly what
    that call passes on: its [nextData] unless that is [undefined], and
    otherwise the payload that activation received. *)
Theorem payloads_are_forwarded ts x evs :
  let st := run ts evs (execute {| tasks := ts |} x).2 in
  map (λ act, (a_index act, a_data act)) (acts st) = invocations (log st)
  ∧ ∀ k i d, log st !! k = Some (Invoked (S i) d) →
      ∃ k' a act e nd,
        k = S k' ∧ log st !! k' = Some (Continued a e nd)
        ∧ acts st !! a = Some act ∧ a_index act = i ∧ truthy e = false
        ∧ (nd ≠ VUndefined → d = nd) ∧ (nd = VUndefined → d = a_data act).
Proof.
  intros st. destruct (execute_chained ts x evs) as [Ha Hl]. fold st in Ha, Hl.
  split; [done |]. intros k i d Hk.
  destruct (Hl k i d Hk) as (k' & -> & a & act & e & nd & H1 & H2 & H3 & H4 & H5).
  exists k', a, act, e, nd. split; [done |]. split; [done |].
  split; [done |]. split; [done |]. split; [done |].
  subst d. unfold pass. simpl. split; [by destruct nd | by intros ->].
Qed.

Lemma payloads_are_forwarded_witness :
  let ts := [continues_later; continues_later] in
  let st := run ts [(0, Call VNull (VNumber 0))]
              (execute {| tasks := ts |} (VNumber 7)).2 in
  log st !! 2 = Some (Invoked 1 (VNumber 0))
  ∧ ∃ k' a act e nd,
      2 = S k' ∧ log st !! k' = Some (Continued a e nd)
      ∧ acts st !! a = Some act ∧ a_index act = 0 ∧ truthy e = false
      ∧ (nd ≠ VUndefined → VNumber 0 = nd)
      ∧ (nd = VUndefined → VNumber 0 = a_data act).
Proof.
  intros ts st.
  assert (H : log st !! 2 = Some (Invoked 1 (VNumber 0))) by reflexivity.
  destruct (payloads_are_forwarded ts (VNumber 7) [(0, Call VNull (VNumber 0))])
    as [_ Hfw].
  split; [exact H | exact (Hfw 2 0 (VNumber 0) H)].
Defined.
